(** * Twine passage model: link engine and layout resolver

    A shallow embedding of [src/data/models/passage.js]: the static
    geometry constants, [intersects], [displace], the position clamp of
    the change handler, the sync handler, [validate], [excerpt], [links],
    [replaceLink], [matches], [numMatches], [replace] and [publish],
    with the properties of each. *)

From Stdlib Require Import QArith Qabs Qminmax Lqa Lia.
From Stdlib Require Import Bool List Ascii String PeanoNat.
Import ListNotations.

Set Implicit Arguments.
Local Open Scope Q_scope.

(** ** JavaScript numbers

    A number is an exact rational or [NaN].  Rounding and the infinities
    of IEEE doubles are left out: every constant of the source (100, 12.5)
    and every sum of a few of them with a coordinate is exact in the
    range a canvas uses. *)

Module JS.

Inductive num : Type :=
| Num (q : Q)
| NaN.

(** A variable that a [let] declared and no branch assigned. *)
Definition maybe (A : Type) := option A.
Definition undefined {A : Type} : maybe A := None.

Definition lift2 (f : Q -> Q -> Q) (x y : num) : num :=
  match x, y with
  | Num a, Num b => Num (f a b)
  | _, _ => NaN
  end.

Definition add : num -> num -> num := lift2 Qplus.
Definition sub : num -> num -> num := lift2 Qminus.
Definition mul : num -> num -> num := lift2 Qmult.

Definition neg (x : num) : num :=
  match x with Num a => Num (- a) | NaN => NaN end.

Definition Qltb (a b : Q) : bool := negb (Qle_bool b a).

(** [x < y]; a comparison with [NaN] is false. *)
Definition lt (x y : num) : bool :=
  match x, y with
  | Num a, Num b => Qltb a b
  | _, _ => false
  end.

(** [x > y] *)
Definition gt (x y : num) : bool := lt y x.

(** [x !== y] on numbers: [NaN] differs from everything. *)
Definition strict_neq (x y : num) : bool :=
  match x, y with
  | Num a, Num b => negb (Qeq_bool a b)
  | _, _ => true
  end.

(** [Math.min], [Math.max], [Math.abs] *)
Definition min : num -> num -> num := lift2 Qmin.
Definition max : num -> num -> num := lift2 Qmax.
Definition abs (x : num) : num :=
  match x with Num a => Num (Qabs a) | NaN => NaN end.

(** Reading a possibly unassigned variable where a number is wanted:
    [undefined] converts to [NaN]. *)
Definition to_number (x : maybe num) : num :=
  match x with Some n => n | None => NaN end.

(** The same number: equal rationals, or both [NaN]. *)
Definition same (x y : num) : Prop :=
  match x, y with
  | Num a, Num b => a == b
  | NaN, NaN => True
  | _, _ => False
  end.

(** A number that is not negative (false of [NaN]). *)
Definition nonneg (x : num) : Prop :=
  match x with Num a => 0 <= a | NaN => False end.

End JS.

Import JS.

(** ** The passage *)

Record Passage : Type := mkPassage {
  id    : maybe string;    (* undefined until first persisted *)
  cid   : string;          (* transient local id *)
  story : string;
  name  : string;
  text  : string;
  tags  : list string;
  left  : num;
  top   : num
}.

Definition with_left (v : num) (p : Passage) : Passage :=
  mkPassage (id p) (cid p) (story p) (name p) (text p) (tags p) v (top p).

Definition with_top (v : num) (p : Passage) : Passage :=
  mkPassage (id p) (cid p) (story p) (name p) (text p) (tags p) (left p) v.

Definition with_text (v : string) (p : Passage) : Passage :=
  mkPassage (id p) (cid p) (story p) (name p) v (tags p) (left p) (top p).

(** Static properties of the class (lines 404-435). *)
Module PassageStatic.
Definition width   : num := Num 100.
Definition height  : num := Num 100.
Definition padding : num := Num (25 # 2).
End PassageStatic.

(** ** Writing a coordinate: [set] and the change handler

    [set] stores the value and, when it differs from the stored one,
    fires the change event; the handler registered in [initialize] sees
    through [changedAttributes()] the attributes that differ from their
    value before the outermost [set].  A [set] made inside the handler
    stores its value and leaves the event pending, so the handler runs
    once more after it returns. *)

(** [_.isEqual] on two numbers. *)
Definition num_eqb (x y : num) : bool :=
  match x, y with
  | Num a, Num b => Qeq_bool a b
  | NaN, NaN => true
  | _, _ => false
  end.

Record Changed : Type := mkChanged {
  ch_top  : maybe num;
  ch_left : maybe num
}.

Definition changedAttributes (prev cur : Passage) : Changed :=
  mkChanged
    (if num_eqb (top prev) (top cur) then undefined else Some (top cur))
    (if num_eqb (left prev) (left cur) then undefined else Some (left cur)).

(** [attrs.k !== null && attrs.k < 0]: an absent key is [undefined],
    which is not [null] and not below zero. *)
Definition is_negative (v : maybe num) : bool :=
  match v with
  | Some n => lt n (Num 0)
  | None => false
  end.

(** Lines 58-68 of the change handler.  Its first half, which touches
    the parent story, writes nothing to the passage and is left out. *)
Definition clamp_position (attrs : Changed) (p : Passage) : Passage :=
  let p1 := if is_negative (ch_top attrs) then with_top (Num 0) p else p in
  if is_negative (ch_left attrs) then with_left (Num 0) p1 else p1.

(** Did the handler's own writes change a stored value? *)
Definition pending (before after : Passage) : bool :=
  negb (num_eqb (top before) (top after) && num_eqb (left before) (left after)).

(** The event loop of [set]: the handler runs while a change is pending. *)
Fixpoint fire_change (rounds : nat) (prev cur : Passage) : Passage :=
  match rounds with
  | O => cur
  | S n =>
      let cur' := clamp_position (changedAttributes prev cur) cur in
      if pending cur cur' then fire_change n prev cur' else cur'
  end.

(** Two rounds are all the loop ever takes ([fire_change_rounds]). *)
Definition change_rounds : nat := 2.

(** [p.set('left', v)] and [p.set('top', v)] *)
Definition set_left (v : num) (p : Passage) : Passage :=
  if num_eqb (left p) v then p
  else fire_change change_rounds p (with_left v p).

Definition set_top (v : num) (p : Passage) : Passage :=
  if num_eqb (top p) v then p
  else fire_change change_rounds p (with_top v p).


(** ** Layout resolver *)

Import PassageStatic.

(** [this.intersects(other)], lines 326-335. *)
Definition intersects (this other : Passage) : bool :=
  let pP := padding in
  let pW := width in
  let pH := height in
  lt (sub (left this) pP) (add (add (left other) pW) pP) &&
  gt (add (add (left this) pW) pP) (sub (left other) pP) &&
  lt (sub (top this) pP) (add (add (top other) pH) pP) &&
  gt (add (add (top this) pH) pP) (sub (top other) pP).

(** The padded bounds that [displace] computes first (lines 347-355). *)
Definition tLeft (this : Passage) : num := sub (left this) padding.
Definition tRight (this : Passage) : num :=
  add (add (tLeft this) width) (mul padding (Num 2)).
Definition tTop (this : Passage) : num := sub (top this) padding.
Definition tBottom (this : Passage) : num :=
  add (add (tTop this) height) (mul padding (Num 2)).
Definition oLeft (other : Passage) : num := sub (left other) padding.
Definition oRight (other : Passage) : num :=
  add (add (oLeft other) width) (mul padding (Num 2)).
Definition oTop (other : Passage) : num := sub (top other) padding.
Definition oBottom (other : Passage) : num :=
  add (add (oTop other) height) (mul padding (Num 2)).

Definition xOverlap (this other : Passage) : num :=
  sub (min (tRight this) (oRight other)) (max (tLeft this) (oLeft other)).
Definition yOverlap (this other : Passage) : num :=
  sub (min (tBottom this) (oBottom other)) (max (tTop this) (oTop other)).

(** The candidate moves of lines 369-370 and 383-384. *)
Definition leftMove (this other : Passage) : num :=
  add (add (sub (oLeft other) (tLeft this)) width) padding.
Definition rightMove (this other : Passage) : num :=
  add (sub (tRight this) (oLeft other)) padding.
Definition upMove (this other : Passage) : num :=
  add (add (sub (oTop other) (tTop this)) height) padding.
Definition downMove (this other : Passage) : num :=
  add (sub (tBottom this) (oTop other)) padding.

(** [xChange] and [yChange] stay unassigned when the overlap is 0. *)
Definition xChange (this other : Passage) : maybe num :=
  if strict_neq (xOverlap this other) (Num 0) then
    if lt (leftMove this other) (rightMove this other)
    then Some (neg (leftMove this other))
    else Some (rightMove this other)
  else undefined.

Definition yChange (this other : Passage) : maybe num :=
  if strict_neq (yOverlap this other) (Num 0) then
    if lt (upMove this other) (downMove this other)
    then Some (neg (upMove this other))
    else Some (downMove this other)
  else undefined.

(** [this.displace(other)], lines 346-402; the result is [other] after
    the call. *)
Definition displace (this other : Passage) : Passage :=
  if gt (abs (to_number (xChange this other)))
        (abs (to_number (yChange this other)))
  then set_top (add (oTop other) (to_number (yChange this other))) other
  else set_left (add (oLeft other) (to_number (xChange this other))) other.

(** The value a [set] of a coordinate leaves stored: the old one when the
    write changes nothing, 0 for a negative number, else the number. *)
Definition stored (old v : num) : num :=
  if num_eqb old v then old else if lt v (Num 0) then Num 0 else v.

(** A passage at a given position, for the examples. *)
Definition passage_at (l t : Q) : Passage :=
  mkPassage None "c1" "s1" "Untitled Passage" "" [] (Num l) (Num t).

(** ** Strings

    A JavaScript string is modelled by [string]: a sequence of code
    units below 256. *)

Local Close Scope Q_scope.
Local Open Scope string_scope.

(** [s.toLowerCase()]: the letters A-Z and the capital letters of
    Latin-1 (192-222, without the multiplication sign 215) move 32 up. *)
Definition lower_char (c : ascii) : ascii :=
  let n := nat_of_ascii c in
  if Nat.leb 65 n && Nat.leb n 90 then ascii_of_nat (n + 32)
  else if Nat.leb 192 n && Nat.leb n 222 && negb (Nat.eqb n 215)
       then ascii_of_nat (n + 32)
       else c.

Fixpoint toLowerCase (s : string) : string :=
  match s with
  | EmptyString => EmptyString
  | String c s' => String (lower_char c) (toLowerCase s')
  end.

(** ** Stories and name validation *)

(** The stories of [StoryCollection.all()], each with what its
    [fetchPassages()] answers.  An id is a string; a numeric id stands
    as its decimal text, which is how [==] compares the two. *)
Record Story : Type := mkStory {
  story_id      : maybe string;
  story_cid     : string;
  fetchPassages : list Passage
}.

(** [x == y] where [x] may be undefined and [y] is a string. *)
Definition loose_eq_str (x : maybe string) (y : string) : bool :=
  match x with
  | Some a => String.eqb a y
  | None => false
  end.

(** [x != y] on two ids: undefined equals only undefined. *)
Definition loose_neq_id (x y : maybe string) : bool :=
  match x, y with
  | Some a, Some b => negb (String.eqb a b)
  | None, None => false
  | _, _ => true
  end.

(** [this.fetchStory()], lines 81-85: the first story whose id or cid is
    the passage's [story]; [undefined] when there is none. *)
Definition fetchStory (stories : list Story) (this : Passage) : maybe Story :=
  find (fun s => loose_eq_str (story_id s) (story this)
                 || String.eqb (story_cid s) (story this)) stories.

(** The [attrs] and [options] that [validate] reads. *)
Record Attrs : Type := mkAttrs {
  attrs_id   : maybe string;
  attrs_name : maybe string
}.

Record Options : Type := mkOptions {
  noValidation     : bool;
  noDupeValidation : bool
}.

(** A call of [locale.say]: the template and its arguments. *)
Inductive Message : Type :=
| Say (template : string) (args : list string).

(** How a call ends: with a value, or with an exception. *)
Inductive Outcome (A : Type) : Type :=
| Returned (a : A)
| Threw (error : string).
Arguments Returned {A} a.
Arguments Threw {A} error.

(** [isDupe], lines 96-100. *)
Definition isDupe (attrs_id : maybe string) (attrs_name : string)
    (passage : Passage) : bool :=
  loose_neq_id attrs_id (id passage) &&
  String.eqb (toLowerCase attrs_name) (toLowerCase (name passage)).

(** [this.validate(attrs, options)], lines 87-109.  A missing name is
    [None]; [this.fetchStory().fetchPassages()] on a story that is not
    there is a [TypeError]. *)
Definition validate (stories : list Story) (this : Passage)
    (attrs : Attrs) (options : Options) : Outcome (maybe Message) :=
  if noValidation options then Returned undefined
  else
    match attrs_name attrs with
    | None | Some EmptyString =>
        Returned (Some (Say "You must give this passage a name." []))
    | Some nm =>
        if noDupeValidation options then Returned undefined
        else
          match fetchStory stories this with
          | None => Threw "TypeError"
          | Some st =>
              if existsb (isDupe (attrs_id attrs) nm) (fetchPassages st)
              then Returned (Some (Say
                     ("There is already a passage named " ++ String "034" "%s." ++
                      String "034" " Please give this one a unique name.")
                     [nm]))
              else Returned undefined
          end
    end.

(** A name that is missing or empty. *)
Definition name_missing (attrs : Attrs) : Prop :=
  attrs_name attrs = None \/ attrs_name attrs = Some EmptyString.

(** Another passage of the story, told apart by id, with the same name
    up to case. *)
Definition has_duplicate (st : Story) (attrs : Attrs) : Prop :=
  exists nm q,
    attrs_name attrs = Some nm /\ In q (fetchPassages st) /\
    loose_neq_id (attrs_id attrs) (id q) = true /\
    toLowerCase nm = toLowerCase (name q).

(** A story with two passages, and a third passage taking the name of
    the first in another case. *)
Definition sample_story : Story :=
  mkStory (Some "s1") "c9"
    [ mkPassage (Some "p1") "c1" "s1" "Start" "" [] (Num 0) (Num 0);
      mkPassage (Some "p2") "c2" "s1" "Cellar" "" [] (Num 0) (Num 150) ].

(** ** Excerpt *)

(** The entity table of Underscore's [_.escape]. *)
Definition escape_char (c : ascii) : string :=
  match nat_of_ascii c with
  | 38%nat => "&amp;"
  | 60%nat => "&lt;"
  | 62%nat => "&gt;"
  | 34%nat => "&quot;"
  | 39%nat => "&#x27;"
  | 96%nat => "&#x60;"
  | _ => String c EmptyString
  end.

Fixpoint underscore_escape (s : string) : string :=
  match s with
  | EmptyString => EmptyString
  | String c s' => escape_char c ++ underscore_escape s'
  end.

(** [this.excerpt()], lines 119-127, over the escaping function [_.escape]. *)
Definition excerpt (escape : string -> string) (this : Passage) : string :=
  let text := escape (text this) in
  if Nat.ltb 100 (String.length text)
  then substring 0 99 text ++ "&hellip;"
  else text.


(** ** Regular expressions

    The patterns of [links] and [replaceLink] are embedded as syntax
    trees and run by a backtracking matcher that tries alternatives in
    the order the language prescribes: the left branch of [|] first, the
    longest run first for [*], the shortest first for [*?].  The matcher
    works on the list of characters of a string. *)

Module RegExp.

Local Open Scope list_scope.

Definition chars := list ascii.

(** A set of characters, by its membership test. *)
Definition cclass := ascii -> bool.

(** [.]: anything but a line terminator. *)
Definition dot : cclass :=
  fun c => negb (Ascii.eqb c "010" || Ascii.eqb c "013").

(** [[^...]] *)
Definition none_of (l : list ascii) : cclass :=
  fun c => negb (existsb (Ascii.eqb c) l).

(** [\w] *)
Definition word : cclass :=
  fun c =>
    let n := nat_of_ascii c in
    (Nat.leb 48 n && Nat.leb n 57) || (Nat.leb 65 n && Nat.leb n 90) ||
    (Nat.leb 97 n && Nat.leb n 122) || Nat.eqb n 95.

Inductive regex : Type :=
| Empty
| Char (c : ascii)
| Class (p : cclass)
| Cat (r1 r2 : regex)
| Alt (r1 r2 : regex)
| Star (p : cclass)            (* p*  *)
| LazyStar (p : cclass)        (* p*? *)
| Opt (r : regex)              (* (?:r)? *)
| Group (n : nat) (r : regex)  (* the n-th capturing parenthesis *)
| Start.                       (* ^ *)

(** A run of literal characters. *)
Fixpoint lit (s : string) : regex :=
  match s with
  | EmptyString => Empty
  | String c s' => Cat (Char c) (lit s')
  end.

(** [p+] *)
Definition plus (p : cclass) : regex := Cat (Class p) (Star p).

(** Several patterns in a row. *)
Fixpoint seq (rs : list regex) : regex :=
  match rs with
  | [] => Empty
  | r :: rs' => Cat r (seq rs')
  end.

(** The state of a match attempt: the input still ahead, its index in
    the whole string, and the captures made so far (latest first). *)
Record mstate : Type := mkState {
  rest : chars;
  pos  : nat;
  caps : list (nat * chars)
}.

Definition cont := mstate -> option mstate.

Definition step (p : cclass) (st : mstate) (k : cont) : option mstate :=
  match rest st with
  | c :: inp => if p c then k (mkState inp (S (pos st)) (caps st)) else None
  | [] => None
  end.

Definition or_else (a : option mstate) (b : unit -> option mstate) :
    option mstate :=
  match a with
  | Some st => Some st
  | None => b tt
  end.

(** [p*] and [p*?] before the continuation [k]. *)
Fixpoint star (greedy : bool) (p : cclass) (k : cont) (inp : chars)
    (i : nat) (cs : list (nat * chars)) {struct inp} : option mstate :=
  let more (_ : unit) :=
    match inp with
    | c :: inp' => if p c then star greedy p k inp' (S i) cs else None
    | [] => None
    end in
  let stop (_ : unit) := k (mkState inp i cs) in
  if greedy then or_else (more tt) stop else or_else (stop tt) more.

(** The text a group took: from where it began to where [st] stands. *)
Definition capture (n : nat) (from : mstate) (st : mstate) : mstate :=
  mkState (rest st) (pos st)
          ((n, firstn (pos st - pos from) (rest from)) :: caps st).

Fixpoint run (r : regex) (st : mstate) (k : cont) {struct r} : option mstate :=
  match r with
  | Empty => k st
  | Char c => step (Ascii.eqb c) st k
  | Class p => step p st k
  | Cat r1 r2 => run r1 st (fun st1 => run r2 st1 k)
  | Alt r1 r2 => or_else (run r1 st k) (fun _ => run r2 st k)
  | Star p => star true p k (rest st) (pos st) (caps st)
  | LazyStar p => star false p k (rest st) (pos st) (caps st)
  | Opt r1 =>
      (* an iteration that takes no character is refused *)
      or_else (run r1 st (fun st1 =>
                 if Nat.eqb (pos st1) (pos st) then None else k st1))
              (fun _ => k st)
  | Group n r1 => run r1 st (fun st1 => k (capture n st st1))
  | Start => if Nat.eqb (pos st) 0 then k st else None
  end.

(** One match: where it starts and ends, and its captures. *)
Record Match : Type := mkMatch {
  m_start : nat;
  m_end   : nat;
  m_caps  : list (nat * chars)
}.

(** A match attempt at index [i], with [inp] the input from there on. *)
Definition match_at (r : regex) (inp : chars) (i : nat) : option Match :=
  match run r (mkState inp i []) Some with
  | Some st => Some (mkMatch i (pos st) (caps st))
  | None => None
  end.

(** All matches of a global pattern, left to right: after a match the
    search resumes at its end, one further when the match was empty.
    [skip] counts the characters of the last match still to pass. *)
Fixpoint scan (r : regex) (inp : chars) (i skip : nat) {struct inp} :
    list Match :=
  match skip with
  | S n =>
      match inp with
      | _ :: inp' => scan r inp' (S i) n
      | [] => []
      end
  | O =>
      match match_at r inp i with
      | Some m =>
          m :: match inp with
               | _ :: inp' => scan r inp' (S i) (m_end m - i - 1)
               | [] => []
               end
      | None =>
          match inp with
          | _ :: inp' => scan r inp' (S i) 0
          | [] => []
          end
      end
  end.

Definition exec_all (r : regex) (s : chars) : list Match := scan r s 0 0.

(** The capture [n] of a match: [None] when the group took no part. *)
Fixpoint lookup (n : nat) (cs : list (nat * chars)) : option chars :=
  match cs with
  | [] => None
  | (k, v) :: cs' => if Nat.eqb k n then Some v else lookup n cs'
  end.

Definition group (n : nat) (m : Match) : option chars := lookup n (m_caps m).

Definition slice (s : chars) (from to : nat) : chars :=
  firstn (to - from) (skipn from s).

Definition matched (s : chars) (m : Match) : chars :=
  slice s (m_start m) (m_end m).

(** [s.match(r)] for a global [r]: the matched texts ([null] is the
    empty list here). *)
Definition match_global (r : regex) (s : chars) : list chars :=
  map (matched s) (exec_all r s).

(** [r.test(s)] *)
Definition test (r : regex) (s : chars) : bool :=
  match exec_all r s with
  | [] => false
  | _ :: _ => true
  end.

(** [s.replace(r, f)] for a global [r]: the text between the matches is
    kept and each match gives way to what [f] makes of it. *)
Fixpoint splice (f : Match -> chars) (s : chars) (from : nat)
    (ms : list Match) : chars :=
  match ms with
  | [] => skipn from s
  | m :: ms' => slice s from (m_start m) ++ f m ++ splice f s (m_end m) ms'
  end.

Definition replace_with (r : regex) (f : Match -> chars) (s : chars) : chars :=
  splice f s 0 (exec_all r s).

(** *** Replacement templates

    [$$] is a dollar, [$&] the match, [$`] and [$'] the text before and
    after it, [$n] and [$nn] a capture when the pattern has that many
    groups; anything else stands for itself. *)

Definition digit_value (c : ascii) : option nat :=
  let n := nat_of_ascii c in
  if Nat.leb 48 n && Nat.leb n 57 then Some (n - 48) else None.

Definition capture_text (n : nat) (m : Match) : chars :=
  match group n m with
  | Some v => v
  | None => []
  end.

Fixpoint expand (groups : nat) (s : chars) (m : Match) (tpl : chars)
    {struct tpl} : chars :=
  match tpl with
  | [] => []
  | c :: t =>
      if negb (Ascii.eqb c "$") then c :: expand groups s m t
      else
        match t with
        | [] => [c]
        | d :: t' =>
            if Ascii.eqb d "$" then "$"%char :: expand groups s m t'
            else if Ascii.eqb d "&" then matched s m ++ expand groups s m t'
            else if Ascii.eqb d "`" then
              firstn (m_start m) s ++ expand groups s m t'
            else if Ascii.eqb d "'" then
              skipn (m_end m) s ++ expand groups s m t'
            else
              match digit_value d with
              | None => c :: expand groups s m t
              | Some n1 =>
                  let one (_ : unit) :=
                    if Nat.leb 1 n1 && Nat.leb n1 groups
                    then capture_text n1 m ++ expand groups s m t'
                    else c :: expand groups s m t in
                  match t' with
                  | e :: t'' =>
                      match digit_value e with
                      | Some n2 =>
                          let nn := n1 * 10 + n2 in
                          if Nat.leb 1 nn && Nat.leb nn groups
                          then capture_text nn m ++ expand groups s m t''
                          else one tt
                      | None => one tt
                      end
                  | [] => one tt
                  end
              end
        end
  end.

(** [s.replace(r, template)] for a global [r] with [groups] capturing
    parentheses. *)
Definition replace_template (r : regex) (groups : nat) (tpl : chars)
    (s : chars) : chars :=
  replace_with r (fun m => expand groups s m tpl) s.

End RegExp.

(** *** What a pattern can match

    [matches r w]: the word [w] is one the pattern [r] can take, whatever
    the order the matcher tries things in. *)

Module Lang.
Import RegExp.
Local Open Scope list_scope.

Inductive matches : regex -> chars -> Prop :=
| M_Empty : matches Empty []
| M_Char (c x : ascii) : Ascii.eqb c x = true -> matches (Char c) [x]
| M_Class (p : cclass) (x : ascii) : p x = true -> matches (Class p) [x]
| M_Cat (r1 r2 : regex) (w1 w2 : chars) :
    matches r1 w1 -> matches r2 w2 -> matches (Cat r1 r2) (w1 ++ w2)
| M_AltL (r1 r2 : regex) (w : chars) : matches r1 w -> matches (Alt r1 r2) w
| M_AltR (r1 r2 : regex) (w : chars) : matches r2 w -> matches (Alt r1 r2) w
| M_Star (p : cclass) (w : chars) :
    Forall (fun x => p x = true) w -> matches (Star p) w
| M_LazyStar (p : cclass) (w : chars) :
    Forall (fun x => p x = true) w -> matches (LazyStar p) w
| M_OptNone (r : regex) : matches (Opt r) []
| M_OptSome (r : regex) (w : chars) : matches r w -> matches (Opt r) w
| M_Group (n : nat) (r : regex) (w : chars) :
    matches r w -> matches (Group n r) w
| M_Start : matches Start [].

(** [inner] occurs in [s]. *)
Definition occurs (inner s : chars) : Prop :=
  exists pre post, s = pre ++ inner ++ post.

(** The pattern [r] matches at no index of [inp]. *)
Definition never (r : regex) (inp : chars) : Prop :=
  forall pre suf i, inp = pre ++ suf -> match_at r suf i = None.

(** The matches [ms] come in order from the index [from] on and do not
    overlap. *)
Fixpoint apart (from : nat) (ms : list Match) : Prop :=
  match ms with
  | [] => True
  | m :: ms' => from <= m_start m /\ m_start m <= m_end m /\ apart (m_end m) ms'
  end.

End Lang.

(** ** Link engine *)

Import RegExp.

Definition L : string -> chars := list_ascii_of_string.
Definition S_ : chars -> string := string_of_list_ascii.

(** [/\[\[.*?\]\]/g], line 139. *)
Definition linkToken : regex :=
  seq [lit "[["; LazyStar dot; lit "]]"].

(** The setter component that a link may end with: [(?:\]\[.*?)?]. *)
Definition setter : regex := Opt (seq [lit "]["; LazyStar dot]).

(** The arrow pattern of line 163, whose source is [arrowLink_source]. *)
Definition arrowLink_source : string :=
  "\[\[(?:([^\]]*)\->|([^\]]*?)<\-)([^\]]*)(?:\]\[.*?)?\]\]".

Definition arrowLink : regex :=
  seq [lit "[[";
       Alt (seq [Group 1 (Star (none_of ["]"%char])); lit "->"])
           (seq [Group 2 (LazyStar (none_of ["]"%char])); lit "<-"]);
       Group 3 (Star (none_of ["]"%char]));
       setter;
       lit "]]"].

(** [(a, b, c, d) => c || d]: [c] and [d] are the captures 2 and 3; an
    unmatched or empty [c] is falsy. *)
Definition arrowReplacer (m : Match) : chars :=
  match group 2 m with
  | Some (x :: c) => x :: c
  | _ =>
      match group 3 m with
      | Some d => d
      | None => L "undefined"
      end
  end.

(** The TiddlyWiki pattern of line 171, whose source is
    [tiddlyLink_source]. *)
Definition tiddlyLink_source : string :=
  "\[\[([^\|\]]*?)\|([^\|\]]*)?(?:\]\[.*?)?\]\]".

Definition tiddlyLink : regex :=
  seq [lit "[[";
       Group 1 (LazyStar (none_of ["|"%char; "]"%char]));
       lit "|";
       Opt (Group 2 (Star (none_of ["|"%char; "]"%char])));
       setter;
       lit "]]"].

(** [/\[\[|(?:\]\[.*?)?\]\]/g], line 177. *)
Definition brackets : regex :=
  Alt (lit "[[") (seq [setter; lit "]]"]).

(** [/^\w+:\/\/\/?\w/i], line 189; the [i] flag changes nothing, [\w]
    holding both cases and the other characters having none. *)
Definition absoluteUri : regex :=
  seq [Start; plus word; lit "://"; Opt (Char "/"); Class word].

(** The three replacements of lines 150-177 on one matched token. *)
Definition resolve (token : chars) : chars :=
  replace_template brackets 0 []
    (replace_template tiddlyLink 2 (L "$2")
       (replace_with arrowLink arrowReplacer token)).

(** [found] is an object literal: reading a key finds the properties it
    was given and, behind them, those of [Object.prototype]. *)
Definition object_prototype_keys : list string :=
  ["constructor"; "toString"; "toLocaleString"; "valueOf";
   "hasOwnProperty"; "isPrototypeOf"; "propertyIsEnumerable"; "__proto__";
   "__defineGetter__"; "__defineSetter__"; "__lookupGetter__";
   "__lookupSetter__"].

Definition has_key (keys : list string) (k : string) : bool :=
  existsb (String.eqb k) keys.

(** [found[link] === undefined] *)
Definition reads_undefined (own : list string) (link : string) : bool :=
  negb (has_key own link || has_key object_prototype_keys link).

(** The loop of lines 146-185 over the matched tokens, from the state
    [(found, result)]. *)
Fixpoint collect (matches : list chars) (found result : list string) :
    list string :=
  match matches with
  | [] => result
  | token :: matches' =>
      let link := S_ (resolve token) in
      if negb (String.eqb link "") && reads_undefined found link
      then collect matches' (link :: found) (result ++ [link])
      else collect matches' found result
  end.

Definition is_internal (link : string) : bool :=
  negb (test absoluteUri (L link)).

(** [this.links(internalOnly)], lines 138-193. *)
Definition links (internalOnly : bool) (this : Passage) : list string :=
  let matches := match_global linkToken (L (text this)) in
  let result := collect matches [] [] in
  if internalOnly then filter is_internal result else result.

(** *** Rewriting links *)

(** The characters that mean something in a pattern. *)
Definition syntax_char (c : ascii) : bool :=
  existsb (Ascii.eqb c)
    ["\"%char; "^"%char; "$"%char; "."%char; "|"%char; "?"%char; "*"%char;
     "+"%char; "("%char; ")"%char; "["%char; "]"%char; "{"%char; "}"%char].

(** A name without syntax characters. *)
Definition plain_name (s : string) : bool :=
  forallb (fun c => negb (syntax_char c)) (L s).

(** One character of a pattern that stands for one character of text:
    itself, or any character but a line break for [.]. *)
Definition atom (c : ascii) : option regex :=
  if Ascii.eqb c "." then Some (Class dot)
  else if syntax_char c then None
  else Some (Char c).

(** [oldLink] is spliced into the source of three patterns, and
    [new RegExp] reads it there as a pattern, not as a name.  Read here:
    plain characters, [.], and either of them made optional by a [?];
    what the constructor makes of a name with other syntax is not
    modelled ([None]). *)
Fixpoint parse_name (s : chars) : option regex :=
  match s with
  | [] => Some Empty
  | c :: s' =>
      match atom c with
      | None => None
      | Some a =>
          match s' with
          | [] => Some (Cat a Empty)
          | q :: s'' =>
              if Ascii.eqb q "?"
              then option_map (Cat (Opt a)) (parse_name s'')
              else option_map (Cat a) (parse_name s')
          end
      end
  end.

Definition name_pattern (oldLink : string) : option regex :=
  parse_name (L oldLink).

(** ['\\[\\[' + oldLink + '(\\]\\[.*?)?\\]\\]'], lines 207-210. *)
Definition simpleLinkRegexp (old : regex) : regex :=
  seq [lit "[["; old; Opt (Group 1 (seq [lit "]["; LazyStar dot])); lit "]]"].

(** ['\\[\\[(.*?)(\\||->)' + oldLink + '(\\]\\[.*?)?\\]\\]'],
    lines 211-214. *)
Definition compoundLinkRegexp (old : regex) : regex :=
  seq [lit "[["; Group 1 (LazyStar dot); Group 2 (Alt (lit "|") (lit "->"));
       old; Opt (Group 3 (seq [lit "]["; LazyStar dot])); lit "]]"].

(** ['\\[\\[' + oldLink + '(<-.*?)(\\]\\[.*?)?\\]\\]'], lines 215-218. *)
Definition reverseLinkRegexp (old : regex) : regex :=
  seq [lit "[["; old; Group 1 (seq [lit "<-"; LazyStar dot]);
       Opt (Group 2 (seq [lit "]["; LazyStar dot])); lit "]]"].

(** Lines 219-224: the text after the three replacements. *)
Definition rewritten (old : regex) (newLink : string) (oldText : string) :
    string :=
  let text := L oldText in
  let text := replace_template (simpleLinkRegexp old) 1
                (L ("[[" ++ newLink ++ "$1]]")) text in
  let text := replace_template (compoundLinkRegexp old) 3
                (L ("[[$1$2" ++ newLink ++ "$3]]")) text in
  let text := replace_template (reverseLinkRegexp old) 2
                (L ("[[" ++ newLink ++ "$1$2]]")) text in
  S_ text.

(** A call of the persistence hook: [this.save({ text: text })]. *)
Inductive Effect : Type :=
| SaveText (cid : string) (text : string).

(** [save], for attributes that pass validation: they are stored and
    handed to the persistence layer. *)
Definition save_text (t : string) (this : Passage) : Passage * list Effect :=
  (with_text t this, [SaveText (cid this) t]).

(** [this.replaceLink(oldLink, newLink)], lines 204-229: the passage
    afterwards and the calls of the persistence hook. *)
Definition replaceLink (oldLink newLink : string) (this : Passage) :
    option (Passage * list Effect) :=
  match name_pattern oldLink with
  | None => None
  | Some old =>
      let oldText := text this in
      let t := rewritten old newLink oldText in
      if negb (String.eqb t oldText) then Some (save_text t this)
      else Some (this, [])
  end.

(** A character of plain link text: no bracket and no line break. *)
Definition plain_char (c : ascii) : bool :=
  negb (existsb (Ascii.eqb c) ["["%char; "]"%char; "010"%char; "013"%char]).

Definition plain (s : string) : bool := forallb plain_char (L s).

(** Do the characters [x] and [y] stand side by side in [s]? *)
Fixpoint has_pair (x y : ascii) (s : chars) : bool :=
  match s with
  | [] => false
  | a :: s' =>
      match s' with
      | [] => false
      | b :: _ => (Ascii.eqb a x && Ascii.eqb b y) || has_pair x y s'
      end
  end.


(** Following the words of the specification: the targets without
    repetition, each where it is first seen. *)
Fixpoint first_seen (l : list string) : list string :=
  match l with
  | [] => []
  | x :: l' => x :: filter (fun y => negb (String.eqb y x)) (first_seen l')
  end.

(** The target that a matched token resolves to. *)
Definition target_of (token : chars) : string := S_ (resolve token).

(** A target that [links] can report: not empty, and not the name of a
    property of [Object.prototype]. *)
Definition reportable (link : string) : bool :=
  negb (String.eqb link "") && negb (has_key object_prototype_keys link).

(** In the words of the specification: a text that begins with a scheme,
    word characters and [://], a further slash or not, and a word
    character. *)
Definition has_scheme (s : chars) : Prop :=
  exists scheme c more,
    scheme <> [] /\ Forall (fun x => word x = true) scheme /\ word c = true /\
    (s = (scheme ++ L "://" ++ c :: more)%list \/
     s = (scheme ++ L ":///" ++ c :: more)%list).

(** A character with no part in the syntax of links or of replacement
    templates. *)
Definition quiet_char (c : ascii) : bool :=
  negb (existsb (Ascii.eqb c)
          ["["%char; "|"%char; "<"%char; ">"%char; "$"%char]).

Definition quiet (s : string) : bool := forallb quiet_char (L s).

(** No character of [l] is in [s]. *)
Definition without (l : list ascii) (s : chars) : Prop :=
  Forall (fun c => existsb (Ascii.eqb c) l = false) s.

(** Does [x] occur in [s]? *)
Fixpoint starts_with (x s : chars) : bool :=
  match x, s with
  | [], _ => true
  | a :: x', b :: s' => Ascii.eqb a b && starts_with x' s'
  | _ :: _, [] => false
  end.

Fixpoint occursb (x s : chars) : bool :=
  starts_with x s ||
  match s with
  | [] => false
  | _ :: s' => occursb x s'
  end.

Definition mentions (name text : string) : bool := occursb (L name) (L text).

(** Passages with a given text, for the examples. *)
Definition passage_with (t : string) : Passage :=
  mkPassage None "c1" "s1" "Untitled Passage" t [] (Num 0) (Num 0).

(** *** The forms of a link *)

(** [[^\|\]]]: the characters of the two sides of a pipe. *)
Definition np : cclass := none_of ["|"%char; "]"%char].

(** The closing brackets, with the setter before them when there is
    one, are what the third replacement takes at the end of a token. *)
Definition closes (tail : chars) : Prop :=
  forall i, match_at brackets (tail ++ L "]]")%list i =
            Some (mkMatch i (i + List.length tail + 2) []).

(** A text free of link syntax: no bracket, no line break, no arrow and
    no pipe. *)
Definition free_text (s : string) : bool :=
  plain s && negb (mentions "->" s) && negb (mentions "<-" s) &&
  negb (mentions "|" s).

(** ** Searching and replacing

    A [RegExp] object as [matches], [numMatches] and [replace] are
    handed it: the pattern that its source stands for under its
    [ignoreCase] flag and, when it has the [global] flag, its
    [lastIndex], which a search reads and writes.  The flags
    [multiline], [sticky] and [unicode] are taken to be unset, and the
    [lastIndex] of an object without [global], which no search reads,
    is left out. *)

Module Search.

Local Open Scope list_scope.

Inductive RegExpObject : Type :=
| Plain (pattern : regex)
| Global (pattern : regex) (lastIndex : nat).

Definition source (re : RegExpObject) : regex :=
  match re with
  | Plain r => r
  | Global r _ => r
  end.

(** The first match at the index [i] or after it, [inp] being the input
    from [i] on. *)
Fixpoint first_match (r : regex) (inp : chars) (i : nat) {struct inp} :
    option Match :=
  match match_at r inp i with
  | Some m => Some m
  | None =>
      match inp with
      | _ :: inp' => first_match r inp' (S i)
      | [] => None
      end
  end.

(** [re.exec(s)]: the match and the object afterwards.  A global object
    searches from its [lastIndex], which moves to the end of the match
    and goes back to 0 when there is none. *)
Definition exec (re : RegExpObject) (s : chars) :
    option Match * RegExpObject :=
  match re with
  | Plain r => (first_match r s 0, re)
  | Global r i =>
      if Nat.ltb (List.length s) i then (None, Global r 0)
      else
        match first_match r (skipn i s) i with
        | Some m => (Some m, Global r (m_end m))
        | None => (None, Global r 0)
        end
  end.

(** [re.test(s)] *)
Definition test (re : RegExpObject) (s : chars) : bool * RegExpObject :=
  match exec re s with
  | (Some _, re') => (true, re')
  | (None, re') => (false, re')
  end.

(** [this.matches(search)], lines 239-241: the answer and [search]
    afterwards. *)
Definition matches (search : RegExpObject) (this : Passage) :
    bool * RegExpObject :=
  match test search (L (name this)) with
  | (true, search') => (true, search')
  | (false, search') => test search' (L (text this))
  end.

(** [this.numMatches(search, checkName)], lines 253-271.  The object
    built in line 256 has the source of [search], the [global] flag
    and [lastIndex] 0; [match] with it gives all matches, or [null],
    which counts 0 as the empty list does. *)
Definition numMatches (search : RegExpObject) (checkName : bool)
    (this : Passage) : nat :=
  let search := Global (source search) 0 in
  let textMatches := match_global (source search) (L (text this)) in
  let nameMatches :=
    if checkName then match_global (source search) (L (name this))
    else [] in
  List.length nameMatches + List.length textMatches.

(** The number of capturing parentheses of a pattern. *)
Fixpoint group_count (r : regex) : nat :=
  match r with
  | Cat r1 r2 | Alt r1 r2 => group_count r1 + group_count r2
  | Opt r1 => group_count r1
  | Group _ r1 => S (group_count r1)
  | _ => 0
  end.

(** [s.replace(re, template)]: every match gives way to the expanded
    template when the object is global, the first one when it is not.
    A global object is searched from 0 and left with [lastIndex] 0. *)
Definition string_replace (re : RegExpObject) (tpl s : chars) :
    chars * RegExpObject :=
  let r := source re in
  let f := fun m => expand (group_count r) s m tpl in
  match re with
  | Plain _ =>
      (splice f s 0 (match first_match r s 0 with
                     | Some m => [m]
                     | None => []
                     end), re)
  | Global _ _ => (splice f s 0 (exec_all r s), Global r 0)
  end.

(** The attributes handed to [save]; a key that is not given is
    [undefined]. *)
Record Saved : Type := mkSaved {
  saved_name : maybe string;
  saved_text : string
}.

(** [this.replace(search, replacement, inName)], lines 284-294: the
    call of [save] that it makes, and [search] afterwards. *)
Definition replace (search : RegExpObject) (replacement : string)
    (inName : bool) (this : Passage) : Saved * RegExpObject :=
  if inName then
    let (n, search1) := string_replace search (L replacement) (L (name this)) in
    let (t, search2) := string_replace search1 (L replacement) (L (text this)) in
    (mkSaved (Some (S_ n)) (S_ t), search2)
  else
    let (t, search1) := string_replace search (L replacement) (L (text this)) in
    (mkSaved undefined (S_ t), search1).

End Search.

(** [search] with its [lastIndex] back at 0. *)
Definition rewound (search : Search.RegExpObject) : Search.RegExpObject :=
  match search with
  | Search.Plain r => Search.Plain r
  | Search.Global r _ => Search.Global r 0
  end.

(** ** The sync handler *)

(** The options an event comes with. *)
Record EventOptions : Type := mkEventOptions {
  noParentUpdate : bool
}.

(** A story of [StoryCollection.all()] with its [startPassage]
    attribute: the id or the cid of a passage, or nothing. *)
Record StoryEntry : Type := mkStoryEntry {
  entry        : Story;
  startPassage : maybe string
}.

(** What [where({ startPassage: cid })] selects. *)
Definition starts_at (cid : string) (s : StoryEntry) : bool :=
  match startPassage s with
  | Some x => String.eqb x cid
  | None => false
  end.

(** The sync handler of lines 34-45: [save({ startPassage: this.id })]
    is called on every story whose start passage is this passage's
    cid.  The result is the collection afterwards, [save] storing the
    attribute it is given. *)
Definition on_sync (options : EventOptions) (this : Passage)
    (stories : list StoryEntry) : list StoryEntry :=
  if noParentUpdate options then stories
  else
    map (fun s => if starts_at (cid this) s
                  then mkStoryEntry (entry s) (id this)
                  else s) stories.

(** ** Publishing *)

(** [a.join(sep)] *)
Fixpoint join (sep : string) (a : list string) : string :=
  match a with
  | [] => ""
  | x :: a' =>
      match a' with
      | [] => x
      | _ :: _ => x ++ sep ++ join sep a'
      end
  end.

(** The object handed to the template. *)
Record TemplateData : Type := mkTemplateData {
  data_id   : num;
  data_name : string;
  data_left : num;
  data_top  : num;
  data_text : string;
  data_tags : string
}.

(** [this.publish(id)], lines 305-316, over the compiled template
    [passage-data.ejs].  A passage without tags gives the empty text, as
    the empty list does. *)
Definition publish (template : TemplateData -> string) (id : num)
    (this : Passage) : string :=
  template (mkTemplateData id (name this) (left this) (top this) (text this)
              (join " " (tags this))).

(** The passage with other tags. *)
Definition with_tags (v : list string) (p : Passage) : Passage :=
  mkPassage (id p) (cid p) (story p) (name p) (text p) v (left p) (top p).

(** * Properties *)

Local Open Scope Q_scope.

(** ** Numbers and the change handler *)

Lemma Qltb_lt (a b : Q) : Qltb a b = true <-> a < b.
Proof.
  unfold Qltb. rewrite negb_true_iff.
  split; intro H.
  - apply Qnot_le_lt. intro L. apply Qle_bool_iff in L. congruence.
  - destruct (Qle_bool b a) eqn:E; [|reflexivity].
    apply Qle_bool_iff in E. lra.
Qed.

Lemma Qltb_ge (a b : Q) : Qltb a b = false <-> b <= a.
Proof.
  unfold Qltb. rewrite negb_false_iff. apply Qle_bool_iff.
Qed.

Lemma Qeq_bool_refl' (a : Q) : Qeq_bool a a = true.
Proof. apply Qeq_bool_iff. reflexivity. Qed.

Lemma num_eqb_refl (x : num) : num_eqb x x = true.
Proof. destruct x; simpl; [apply Qeq_bool_refl'|reflexivity]. Qed.


Lemma lt_zero_zero : JS.lt (Num 0) (Num 0) = false.
Proof. reflexivity. Qed.

Lemma is_negative_after_clamp (prev0 : num) :
  is_negative (if num_eqb prev0 (Num 0) then undefined else Some (Num 0)) = false.
Proof. destruct (num_eqb prev0 (Num 0)); reflexivity. Qed.

(** A second run of the handler finds nothing left to clamp. *)
Lemma clamp_position_settled (prev cur : Passage) :
  let cur' := clamp_position (changedAttributes prev cur) cur in
  clamp_position (changedAttributes prev cur') cur' = cur'.
Proof.
  destruct prev as [i1 c1 s1 n1 t1 g1 l1 p1], cur as [i2 c2 s2 n2 t2 g2 l2 p2].
  unfold clamp_position, changedAttributes; cbn [ch_top ch_left top left].
  destruct (is_negative (if num_eqb p1 p2 then undefined else Some p2)) eqn:Et;
  destruct (is_negative (if num_eqb l1 l2 then undefined else Some l2)) eqn:El;
  cbn [with_top with_left top left id cid story name text tags];
  rewrite ?is_negative_after_clamp, ?Et, ?El; reflexivity.
Qed.

Lemma pending_same (p : Passage) : pending p p = false.
Proof. unfold pending. now rewrite !num_eqb_refl. Qed.

Lemma fire_change_rounds (n : nat) (prev cur : Passage) :
  fire_change (change_rounds + n) prev cur = fire_change change_rounds prev cur.
Proof.
  unfold change_rounds. cbn [Nat.add fire_change].
  destruct (pending cur _); [|reflexivity].
  rewrite clamp_position_settled, pending_same.
  destruct n; cbn [fire_change]; reflexivity.
Qed.

Lemma fire_change_once (prev cur : Passage) :
  fire_change change_rounds prev cur =
  clamp_position (changedAttributes prev cur) cur.
Proof.
  unfold change_rounds. cbn [fire_change].
  destruct (pending cur _); [|reflexivity].
  rewrite clamp_position_settled, pending_same. reflexivity.
Qed.

Lemma set_left_eq (v : num) (p : Passage) :
  set_left v p = with_left (stored (left p) v) p.
Proof.
  unfold set_left, stored. rewrite fire_change_once.
  destruct p as [i c s n t g l tp].
  unfold clamp_position, changedAttributes.
  cbn [left top with_left with_top ch_top ch_left].
  destruct (num_eqb l v) eqn:E; [reflexivity|].
  rewrite num_eqb_refl. cbn [is_negative undefined].
  destruct (JS.lt v (Num 0)); reflexivity.
Qed.

Lemma set_top_eq (v : num) (p : Passage) :
  set_top v p = with_top (stored (top p) v) p.
Proof.
  unfold set_top, stored. rewrite fire_change_once.
  destruct p as [i c s n t g l tp].
  unfold clamp_position, changedAttributes.
  cbn [left top with_left with_top ch_top ch_left].
  destruct (num_eqb tp v) eqn:E; [reflexivity|].
  rewrite num_eqb_refl. cbn [is_negative undefined].
  destruct (JS.lt v (Num 0)); reflexivity.
Qed.

(** ** Layout resolver *)

(** C10. [intersects] is symmetric: the first and second inequality of
    one call are the second and first of the other, and so for the
    third and fourth, both passages sharing the width, height and
    padding of the class. *)
Theorem intersects_symmetric (a b : Passage) :
  intersects a b = intersects b a.
Proof.
  unfold intersects, JS.gt.
  destruct (JS.lt (sub (left a) padding) (add (add (left b) width) padding)),
           (JS.lt (sub (left b) padding) (add (add (left a) width) padding)),
           (JS.lt (sub (top a) padding) (add (add (top b) height) padding)),
           (JS.lt (sub (top b) padding) (add (add (top a) height) padding));
    reflexivity.
Qed.

(** Overlapping passages have rational coordinates less than 125 apart
    on both axes. *)
Lemma intersects_inv (a o : Passage) :
  intersects a o = true ->
  exists al at_ ol ot,
    left a = Num al /\ top a = Num at_ /\ left o = Num ol /\ top o = Num ot /\
    al - ol < 125 /\ ol - al < 125 /\ at_ - ot < 125 /\ ot - at_ < 125.
Proof.
  unfold intersects, JS.gt, padding, width, height.
  destruct (left a) as [al|], (top a) as [at_|], (left o) as [ol|], (top o) as [ot|];
    cbn [JS.lt JS.sub JS.add lift2 andb]; rewrite ?andb_false_r; try discriminate.
  rewrite !andb_true_iff, !Qltb_lt. intros [[[H1 H2] H3] H4].
  exists al, at_, ol, ot. repeat split; lra.
Qed.

Lemma intersects_false_left (a o : Passage) (al ol : Q) :
  left a = Num al -> left o = Num ol ->
  ol + 125 <= al \/ al + 125 <= ol ->
  intersects a o = false.
Proof.
  intros Ha Ho H. unfold intersects, JS.gt, padding, width, height.
  rewrite Ha, Ho. cbn [JS.lt JS.sub JS.add lift2].
  destruct H as [H|H].
  - replace (Qltb (al - (25 # 2)) (ol + 100 + (25 # 2))) with false;
      [reflexivity|].
    symmetry. apply Qltb_ge. lra.
  - replace (Qltb (ol - (25 # 2)) (al + 100 + (25 # 2))) with false;
      [now rewrite andb_false_r|].
    symmetry. apply Qltb_ge. lra.
Qed.

Lemma intersects_false_top (a o : Passage) (al ol : Q) :
  top a = Num al -> top o = Num ol ->
  ol + 125 <= al \/ al + 125 <= ol ->
  intersects a o = false.
Proof.
  intros Ha Ho H. unfold intersects, JS.gt, padding, width, height.
  rewrite Ha, Ho.
  destruct H as [H|H].
  - replace (JS.lt (sub (Num al) (Num (25 # 2)))
                   (add (add (Num ol) (Num 100)) (Num (25 # 2))))
      with false; [now rewrite !andb_false_r|].
    symmetry. apply Qltb_ge. lra.
  - replace (JS.lt (sub (Num ol) (Num (25 # 2)))
                   (add (add (Num al) (Num 100)) (Num (25 # 2))))
      with false; [now rewrite !andb_false_r|].
    symmetry. apply Qltb_ge. lra.
Qed.

Ltac js_unfold :=
  unfold displace, xChange, yChange, xOverlap, yOverlap, leftMove, rightMove,
    upMove, downMove, tRight, tBottom, oRight, oBottom, tLeft, tTop, oLeft,
    oTop, padding, width, height in *;
  cbn [JS.lt JS.gt JS.add JS.sub JS.mul JS.neg JS.abs JS.min JS.max lift2
       JS.strict_neq JS.to_number undefined left top] in *.

Lemma Qeq_bool_false (a b : Q) : ~ a == b -> Qeq_bool a b = false.
Proof.
  intro H. destruct (Qeq_bool a b) eqn:E; [|reflexivity].
  apply Qeq_bool_iff in E. contradiction.
Qed.

Lemma overlap_nonzero (t o : Q) :
  t - o < 125 -> o - t < 125 ->
  Qeq_bool
    (Qmin (t - (25 # 2) + 100 + (25 # 2) * 2) (o - (25 # 2) + 100 + (25 # 2) * 2)
     - Qmax (t - (25 # 2)) (o - (25 # 2))) 0 = false.
Proof.
  intros H1 H2. apply Qeq_bool_false.
  destruct (Q.min_spec (t - (25 # 2) + 100 + (25 # 2) * 2)
                       (o - (25 # 2) + 100 + (25 # 2) * 2)) as [[? E1]|[? E1]];
  destruct (Q.max_spec (t - (25 # 2)) (o - (25 # 2))) as [[? E2]|[? E2]];
  rewrite E1, E2; lra.
Qed.

(** The moves on one axis, for positions [t] of the anchor and [o] of
    the other passage less than 125 apart. *)
Ltac axis_moves Ha Ho :=
  js_unfold; rewrite Ha, Ho;
  cbn [JS.lt JS.gt JS.add JS.sub JS.mul JS.neg JS.abs JS.min JS.max lift2
       JS.strict_neq];
  rewrite overlap_nonzero by assumption; cbn [negb];
  do 2 eexists;
  match goal with
  | |- context [Qltb ?x ?y] =>
      let E := fresh "E" in
      destruct (Qltb x y) eqn:E; eexists;
      (split; [reflexivity|]); (split; [reflexivity|]); (split; [reflexivity|]);
      [apply Qltb_lt in E | apply Qltb_ge in E];
      repeat split; intros; lra
  end.

Lemma xChange_overlapping (a o : Passage) (al ol : Q) :
  left a = Num al -> left o = Num ol ->
  al - ol < 125 -> ol - al < 125 ->
  exists lm rm xc,
    leftMove a o = Num lm /\ rightMove a o = Num rm /\
    xChange a o = Some (Num xc) /\
    lm == ol - al + (225 # 2) /\ rm == al - ol + (275 # 2) /\
    (ol - al < (25 # 2) -> xc == - lm) /\
    ((25 # 2) <= ol - al -> xc == rm).
Proof. intros Ha Ho H1 H2. axis_moves Ha Ho. Qed.

Lemma yChange_overlapping (a o : Passage) (at_ ot : Q) :
  top a = Num at_ -> top o = Num ot ->
  at_ - ot < 125 -> ot - at_ < 125 ->
  exists um dm yc,
    upMove a o = Num um /\ downMove a o = Num dm /\
    yChange a o = Some (Num yc) /\
    um == ot - at_ + (225 # 2) /\ dm == at_ - ot + (275 # 2) /\
    (ot - at_ < (25 # 2) -> yc == - um) /\
    ((25 # 2) <= ot - at_ -> yc == dm).
Proof. intros Ha Ho H1 H2. axis_moves Ha Ho. Qed.







(** C1 at the failing input: the anchor at (50, 50) and the other
    passage at (40, 40) overlap; [displace] sends the other passage to
    the left of the anchor, to -75, which the change handler stores as
    0, and the pair still overlaps. *)
Theorem displace_clamped_still_intersects :
  let anchor := passage_at 50 50 in
  let other := passage_at 40 40 in
  intersects anchor other = true /\
  displace anchor other = passage_at 0 40 /\
  intersects anchor (displace anchor other) = true.
Proof. vm_compute. auto. Qed.

(** Against the same edge a passage at the origin is not moved at all. *)
Lemma displace_clamped_unchanged :
  let anchor := passage_at 50 50 in
  let other := passage_at 0 0 in
  intersects anchor other = true /\
  displace anchor other = other.
Proof. vm_compute. auto. Qed.

(** Where neither move leads below zero, [displace] does what its
    comment says: the pair no longer overlaps and one coordinate of the
    other passage has changed. *)
Lemma displace_separates_unclamped (a o : Passage) (xc yc : Q) :
  intersects a o = true ->
  xChange a o = Some (Num xc) -> yChange a o = Some (Num yc) ->
  nonneg (add (oLeft o) (Num xc)) -> nonneg (add (oTop o) (Num yc)) ->
  intersects a (displace a o) = false /\
  (~ same (left (displace a o)) (left o) /\ top (displace a o) = top o \/
   left (displace a o) = left o /\ ~ same (top (displace a o)) (top o)).
Proof.
  intros Hi Ex Ey Nx Ny.
  destruct (intersects_inv a o Hi)
    as (al & at_ & ol & ot & Hal & Hat & Hol & Hot & X1 & X2 & Y1 & Y2).
  destruct (xChange_overlapping a o Hal Hol X1 X2)
    as (lm & rm & xc' & Elm & Erm & Exc & Vlm & Vrm & Xn & Xf).
  destruct (yChange_overlapping a o Hat Hot Y1 Y2)
    as (um & dm & yc' & Eum & Edm & Eyc & Vum & Vdm & Yn & Yf).
  rewrite Ex in Exc; injection Exc as <-.
  rewrite Ey in Eyc; injection Eyc as <-.
  unfold oLeft, oTop, padding in Nx, Ny. rewrite Hol in Nx. rewrite Hot in Ny.
  cbn [JS.sub JS.add lift2 nonneg] in Nx, Ny.
  unfold displace. rewrite Ex, Ey. cbn [JS.to_number JS.abs JS.gt JS.lt].
  destruct (Qltb (Qabs yc) (Qabs xc)).
  - rewrite set_top_eq. unfold oTop, padding. rewrite Hot.
    cbn [JS.sub JS.add lift2]. unfold stored.
    assert (D : ~ ot == ot - (25 # 2) + yc).
    { destruct (Qlt_le_dec (ot - at_) (25 # 2)) as [C|C];
        [specialize (Yn C)|specialize (Yf C)]; lra. }
    cbn [num_eqb JS.lt]. rewrite (Qeq_bool_false D).
    replace (Qltb (ot - (25 # 2) + yc) 0) with false
      by (symmetry; apply Qltb_ge; exact Ny).
    split.
    + apply (@intersects_false_top _ _ at_ (ot - (25 # 2) + yc)); auto.
      destruct (Qlt_le_dec (ot - at_) (25 # 2)) as [C|C];
        [specialize (Yn C)|specialize (Yf C)]; lra.
    + right. destruct o; cbn [left top with_top] in *. split; [reflexivity|].
      cbn [same]. intro E. apply D. symmetry. exact E.
  - rewrite set_left_eq. unfold oLeft, padding. rewrite Hol.
    cbn [JS.sub JS.add lift2]. unfold stored.
    assert (D : ~ ol == ol - (25 # 2) + xc).
    { destruct (Qlt_le_dec (ol - al) (25 # 2)) as [C|C];
        [specialize (Xn C)|specialize (Xf C)]; lra. }
    cbn [num_eqb JS.lt]. rewrite (Qeq_bool_false D).
    replace (Qltb (ol - (25 # 2) + xc) 0) with false
      by (symmetry; apply Qltb_ge; exact Nx).
    split.
    + apply (@intersects_false_left _ _ al (ol - (25 # 2) + xc)); auto.
      destruct (Qlt_le_dec (ol - al) (25 # 2)) as [C|C];
        [specialize (Xn C)|specialize (Xf C)]; lra.
    + left. destruct o; cbn [left top with_left] in *. split; [|reflexivity].
      cbn [same]. intro E. apply D. symmetry. exact E.
Qed.

(** ** The position clamp *)









(** ** Further properties of the layout resolver *)










Lemma touching_overlap_zero (t o : Q) :
  o == t + 125 \/ t == o + 125 ->
  Qeq_bool
    (Qmin (t - (25 # 2) + 100 + (25 # 2) * 2) (o - (25 # 2) + 100 + (25 # 2) * 2)
     - Qmax (t - (25 # 2)) (o - (25 # 2))) 0 = true.
Proof.
  intro H. apply Qeq_bool_iff.
  apply Q.min_case_strong; try (intros ? ? E; rewrite E; tauto);
  apply Q.max_case_strong; try (intros ? ? E; rewrite E; tauto); intros; lra.
Qed.

Lemma displace_touching (a o : Passage) (al ol : Q) :
  left a = Num al -> left o = Num ol ->
  ol == al + 125 \/ al == ol + 125 ->
  displace a o = with_left NaN o.
Proof.
  intros Hal Hol H.
  assert (Ex : xChange a o = undefined).
  { js_unfold. rewrite Hal, Hol.
    cbn [JS.sub JS.add JS.mul JS.min JS.max lift2 JS.strict_neq].
    now rewrite touching_overlap_zero. }
  unfold displace. rewrite Ex.
  cbn [JS.to_number undefined JS.abs].
  replace (gt NaN (abs (to_number (yChange a o)))) with false
    by (unfold JS.gt, JS.lt; now destruct (abs _)).
  rewrite set_left_eq.
  replace (add (oLeft o) NaN) with NaN
    by (unfold JS.add, lift2; now destruct (oLeft o)).
  unfold stored. rewrite Hol. reflexivity.
Qed.

(** X4.  A pair exactly 125 apart sideways does not intersect, and
    [displace] on it leaves [xChange] unassigned: the left coordinate of
    the other passage is set to [NaN], whatever the tops are. *)
Theorem displace_touching_writes_NaN (a o : Passage) (al ol : Q) :
  left a = Num al -> left o = Num ol ->
  ol == al + 125 \/ al == ol + 125 ->
  intersects a o = false /\
  xChange a o = undefined /\
  displace a o = with_left NaN o.
Proof.
  intros Hal Hol H. split; [|split].
  - apply (@intersects_false_left a o al ol Hal Hol). destruct H; lra.
  - js_unfold. rewrite Hal, Hol.
    cbn [JS.sub JS.add JS.mul JS.min JS.max lift2 JS.strict_neq].
    now rewrite touching_overlap_zero.
  - now apply (@displace_touching a o al ol).
Qed.

Lemma displace_touching_writes_NaN_witness :
  left (displace (passage_at 200 200) (passage_at 325 210)) = NaN.
Proof.
  destruct (@displace_touching_writes_NaN
              (passage_at 200 200) (passage_at 325 210) 200 325)
    as (_ & _ & E); [reflexivity | reflexivity | left; reflexivity |].
  rewrite E. reflexivity.
Defined.





(** X7.  The change handler settles: what its first run leaves is left
    as it is by a further run, so the loop of [set] and the handler's
    own [set] ends after two rounds at most, however many it is given. *)
Theorem change_handler_settles (prev cur : Passage) (n : nat) :
  let cur' := clamp_position (changedAttributes prev cur) cur in
  clamp_position (changedAttributes prev cur') cur' = cur' /\
  fire_change (change_rounds + n) prev cur = cur'.
Proof.
  cbv zeta. split.
  - apply clamp_position_settled.
  - rewrite fire_change_rounds. apply fire_change_once.
Qed.

(** X8.  A write of one coordinate touches nothing else: [top] is left
    as stored by a write of [left], also a negative one, and the other
    way round; the coordinate written keeps its old value when the new
    one is equal, becomes 0 for a negative number, and the number
    otherwise. *)
Theorem set_writes_one_coordinate (v : num) (p : Passage) :
  set_left v p = with_left (stored (left p) v) p /\
  set_top v p = with_top (stored (top p) v) p /\
  top (set_left v p) = top p /\ left (set_top v p) = left p.
Proof.
  rewrite set_left_eq, set_top_eq. destruct p. repeat split.
Qed.

Local Close Scope Q_scope.

(** ** Name validation *)

Lemma isDupe_exists (st : Story) (i : maybe string) (nm : string) :
  existsb (isDupe i nm) (fetchPassages st) = true <->
  exists q, In q (fetchPassages st) /\ loose_neq_id i (id q) = true /\
            toLowerCase nm = toLowerCase (name q).
Proof.
  rewrite existsb_exists. unfold isDupe.
  split; intros (q & Hq & H); exists q; (split; [exact Hq|]).
  - apply andb_true_iff in H as [H1 H2]. now apply String.eqb_eq in H2.
  - destruct H as [H1 H2]. apply andb_true_iff. split; [exact H1|].
    now apply String.eqb_eq.
Qed.

(** C9. [validate] reports a failure by the message it returns: it
    returns a message exactly when validation is on and either the name
    is missing or empty, or the duplicate check is on and another
    passage of the passage's story, told apart by id, has the same name
    up to case.  With [noValidation] it returns nothing; with
    [noDupeValidation] a named passage passes.  It returns whenever the
    story is found; the one exception it can raise is for a story that
    is not there, when there is no failure to report. *)
Theorem validate_reports (stories : list Story) (this : Passage)
    (attrs : Attrs) (options : Options) :
  ((exists m, validate stories this attrs options = Returned (Some m)) <->
   noValidation options = false /\
   (name_missing attrs \/
    noDupeValidation options = false /\
    exists st, fetchStory stories this = Some st /\ has_duplicate st attrs)) /\
  (noValidation options = true ->
   validate stories this attrs options = Returned undefined) /\
  (noDupeValidation options = true -> ~ name_missing attrs ->
   validate stories this attrs options = Returned undefined) /\
  (forall st, fetchStory stories this = Some st ->
   exists r, validate stories this attrs options = Returned r) /\
  (forall e, validate stories this attrs options = Threw e ->
   fetchStory stories this = None /\ ~ name_missing attrs /\
   noValidation options = false /\ noDupeValidation options = false).
Proof.
  unfold validate, name_missing, has_duplicate.
  destruct options as [nv nd], attrs as [ai an];
    cbn [noValidation noDupeValidation attrs_id attrs_name].
  destruct nv; [|destruct an as [[|c nm]|];
    [| destruct nd;
       [| destruct (fetchStory stories this) as [st|] eqn:Hst;
          [destruct (existsb _ _) eqn:E|]]|]];
    (split; [split|split; [|split; [|split]]]).
  all: try discriminate.
  all: try (intros (m & X); discriminate).
  all: try (intros _; reflexivity).
  all: try (intros _; eexists; reflexivity).
  all: try (intros ? _; eexists; reflexivity).
  all: try (intros ? ?; discriminate).
  - intros _. split; [reflexivity|]. left. now right.
  - intros _ X. exfalso. apply X. now right.
  - intros (_ & [[X|X]|[X _]]); discriminate.
  - intros _. split; [reflexivity|]. right. split; [reflexivity|].
    apply isDupe_exists in E as (q & Hq & Hi & Hn).
    exists st. split; [reflexivity|]. exists (String c nm), q. auto.
  - intros (_ & [[X|X]|(_ & st' & Es & n' & q & Hn & Hq & Hi & Hl)]);
      try discriminate.
    injection Es as <-. injection Hn as <-.
    assert (X : existsb (isDupe ai (String c nm)) (fetchPassages st) = true)
      by (apply isDupe_exists; eauto).
    congruence.
  - intros (_ & [[X|X]|(_ & st' & Es & _)]); discriminate.
  - intros e _. repeat split; try reflexivity. intros [X|X]; discriminate.
  - intros _. split; [reflexivity|]. left. now left.
  - intros _ X. exfalso. apply X. now left.
Qed.

(** A passage taking, in another case, the name of a passage of its
    story. *)
Lemma validate_reports_witness :
  exists m,
    validate [sample_story]
      (mkPassage (Some "p3") "c3" "s1" "Attic" "" [] (Num 0) (Num 300))
      (mkAttrs (Some "p3") (Some "START")) (mkOptions false false)
    = Returned (Some m).
Proof.
  apply (validate_reports [sample_story]
           (mkPassage (Some "p3") "c3" "s1" "Attic" "" [] (Num 0) (Num 300))
           (mkAttrs (Some "p3") (Some "START")) (mkOptions false false)).
  split; [reflexivity|]. right. split; [reflexivity|].
  exists sample_story. split; [reflexivity|].
  exists "START", (mkPassage (Some "p1") "c1" "s1" "Start" "" [] (Num 0) (Num 0)).
  repeat split; try reflexivity. left. reflexivity.
Defined.

(** Without the owning story the duplicate check has nothing to call. *)
Lemma validate_without_story :
  validate [] (passage_at 0 0) (mkAttrs None (Some "Start"))
    (mkOptions false false) = Threw "TypeError".
Proof. reflexivity. Qed.

(** ** Excerpt *)

Lemma length_append (s t : string) :
  String.length (s ++ t) = (String.length s + String.length t)%nat.
Proof. induction s; cbn; [reflexivity|now rewrite IHs]. Qed.

Lemma length_substring_0 (n : nat) (s : string) :
  (n <= String.length s)%nat -> String.length (substring 0 n s) = n.
Proof.
  revert s. induction n; intros [|c s] H; cbn in *; try reflexivity; try lia.
  rewrite IHn; [reflexivity|lia].
Qed.






(** ** Further properties of validation and of the excerpt *)

Lemma isDupe_unsaved (nm : string) (q : Passage) :
  id q = None -> isDupe None nm q = false.
Proof. intro H. unfold isDupe. rewrite H. reflexivity. Qed.

(** X9.  Passages are told apart by [id] alone: a passage that has no id
    yet is never reported as a duplicate of passages that have none
    either, whatever their names, and no passage is a duplicate of a
    passage with its own id. *)
Theorem validate_same_id_never_duplicate (stories : list Story)
    (this : Passage) (attrs : Attrs) (options : Options) (st : Story)
    (nm : string) :
  fetchStory stories this = Some st ->
  attrs_name attrs = Some nm -> nm <> "" ->
  (forall q, In q (fetchPassages st) ->
             toLowerCase nm = toLowerCase (name q) -> id q = attrs_id attrs) ->
  validate stories this attrs options = Returned undefined.
Proof.
  intros Hs Hn Hne Hq. unfold validate.
  destruct (noValidation options); [reflexivity|].
  rewrite Hn. destruct nm as [|c nm']; [contradiction|].
  destruct (noDupeValidation options); [reflexivity|].
  rewrite Hs.
  replace (existsb _ (fetchPassages st)) with false; [reflexivity|].
  symmetry. apply not_true_is_false. intro E.
  apply existsb_exists in E as (q & Iq & D).
  unfold isDupe in D. apply andb_true_iff in D as [D1 D2].
  apply String.eqb_eq in D2. rewrite (Hq q Iq D2) in D1.
  destruct (attrs_id attrs) as [i|]; cbn in D1; [|discriminate].
  rewrite String.eqb_refl in D1. discriminate.
Qed.

Lemma validate_same_id_never_duplicate_witness :
  validate
    [mkStory (Some "s1") "c9"
       [mkPassage None "c1" "s1" "Start" "" [] (Num 0) (Num 0)]]
    (mkPassage None "c2" "s1" "Untitled Passage" "" [] (Num 0) (Num 0))
    (mkAttrs None (Some "START")) (mkOptions false false)
  = Returned undefined.
Proof.
  apply (@validate_same_id_never_duplicate _ _ _ _
           (mkStory (Some "s1") "c9"
              [mkPassage None "c1" "s1" "Start" "" [] (Num 0) (Num 0)])
           "START").
  - reflexivity.
  - reflexivity.
  - discriminate.
  - intros q [<-|[]] _. reflexivity.
Defined.

(** X10.  An excerpt has the length of the escaped text when that is at
    most 100, else 107: it is never longer than 107 characters, and for
    an escaped text of 101 to 106 characters it is longer than the
    escaped text it stands for. *)
Theorem excerpt_length (escape : string -> string) (p : Passage) :
  let n := String.length (escape (text p)) in
  String.length (excerpt escape p) = (if Nat.ltb 100 n then 107 else n)%nat /\
  (String.length (excerpt escape p) <= 107)%nat /\
  ((100 < n)%nat -> (n < 107)%nat -> (n < String.length (excerpt escape p))%nat).
Proof.
  cbv zeta. unfold excerpt.
  destruct (Nat.ltb 100 (String.length (escape (text p)))) eqn:E.
  - apply Nat.ltb_lt in E.
    rewrite length_append, length_substring_0 by lia.
    cbn [String.length]. repeat split; lia.
  - apply Nat.ltb_ge in E. repeat split; lia.
Qed.


Lemma escape_char_safe (c x : ascii) :
  In x (list_ascii_of_string (escape_char c)) ->
  ~ In x ["<"%char; ">"%char; "034"%char; "'"%char; "`"%char].
Proof.
  destruct c as [[] [] [] [] [] [] [] []]; cbn;
    intros H; repeat (destruct H as [<-|H]; [intuition discriminate|]);
    destruct H.
Qed.

Lemma list_of_append (s t : string) :
  list_ascii_of_string (s ++ t) =
  (list_ascii_of_string s ++ list_ascii_of_string t)%list.
Proof. induction s as [|c s IH]; cbn; [reflexivity|now rewrite IH]. Qed.

Lemma underscore_escape_safe (s : string) (x : ascii) :
  In x (list_ascii_of_string (underscore_escape s)) ->
  ~ In x ["<"%char; ">"%char; "034"%char; "'"%char; "`"%char].
Proof.
  induction s as [|c s IH]; cbn [underscore_escape]; [intros []|].
  rewrite list_of_append. intro H. apply in_app_or in H as [H|H]; auto.
  now apply escape_char_safe in H.
Qed.

Lemma substring_in (n : nat) (s : string) (x : ascii) :
  In x (list_ascii_of_string (substring 0 n s)) ->
  In x (list_ascii_of_string s).
Proof.
  revert s. induction n as [|n IH]; intros [|c s]; cbn; try tauto.
  intros [H|H]; auto.
Qed.

(** X11.  With Underscore's escaping the excerpt holds no angle bracket
    and no quote of any kind, cut or not: it can be put into markup as
    it is. *)
Theorem excerpt_holds_no_markup (p : Passage) :
  Forall (fun x => ~ In x ["<"%char; ">"%char; "034"%char; "'"%char; "`"%char])
    (list_ascii_of_string (excerpt underscore_escape p)).
Proof.
  apply Forall_forall. intro x.
  unfold excerpt. destruct (Nat.ltb 100 _).
  - rewrite list_of_append. intro H. apply in_app_or in H as [H|H].
    + apply substring_in in H. now apply underscore_escape_safe in H.
    + cbn in H. repeat (destruct H as [<-|H]; [cbn; intuition discriminate|]).
      destruct H.
  - apply underscore_escape_safe.
Qed.
(** ** The matcher *)

Module RegExpFacts.
Import RegExp Lang.
Local Open Scope list_scope.

Lemma or_else_some (a : option mstate) (b : unit -> option mstate)
    (res : mstate) :
  or_else a b = Some res -> a = Some res \/ (a = None /\ b tt = Some res).
Proof. destruct a; cbn; intro H; [left|right]; auto. Qed.

Lemma step_sound (p : cclass) (st : mstate) (k : cont) (res : mstate) :
  step p st k = Some res ->
  exists x st1, p x = true /\ rest st = x :: rest st1 /\
                pos st1 = S (pos st) /\ k st1 = Some res.
Proof.
  unfold step. destruct (rest st) as [|c inp] eqn:E; [discriminate|].
  destruct (p c) eqn:Hp; [|discriminate]. intro H.
  exists c, (mkState inp (S (pos st)) (caps st)). auto.
Qed.

Lemma star_sound (g : bool) (p : cclass) (k : cont) (inp : chars)
    (i : nat) (cs : list (nat * chars)) (res : mstate) :
  star g p k inp i cs = Some res ->
  exists w st1, Forall (fun x => p x = true) w /\ inp = w ++ rest st1 /\
                pos st1 = i + List.length w /\ k st1 = Some res.
Proof.
  revert i. induction inp as [|c inp IH]; intros i H.
  - exists [], (mkState [] i cs). cbn in H.
    destruct g; cbn in H; repeat split; auto;
      destruct (k (mkState [] i cs)); cbn in H; congruence.
  - assert (More : (if p c then star g p k inp (S i) cs else None) = Some res ->
                   exists w st1, Forall (fun x => p x = true) w /\
                     c :: inp = w ++ rest st1 /\
                     pos st1 = i + List.length w /\ k st1 = Some res).
    { destruct (p c) eqn:Hp; [|discriminate]. intro H1.
      destruct (IH _ H1) as (w & st1 & Hw & E & P & K).
      exists (c :: w), st1. cbn. rewrite E. repeat split; auto; lia. }
    assert (Stop : k (mkState (c :: inp) i cs) = Some res ->
                   exists w st1, Forall (fun x => p x = true) w /\
                     c :: inp = w ++ rest st1 /\
                     pos st1 = i + List.length w /\ k st1 = Some res).
    { intro H1. exists [], (mkState (c :: inp) i cs). cbn.
      repeat split; auto. }
    cbn in H. destruct g; apply or_else_some in H as [H|[_ H]]; auto.
Qed.

(** What the matcher accepts is a word of the pattern, read off the
    front of the input. *)
Lemma run_sound (r : regex) :
  forall (st : mstate) (k : cont) (res : mstate),
    run r st k = Some res ->
    exists w st1, matches r w /\ rest st = w ++ rest st1 /\
                  pos st1 = pos st + List.length w /\ k st1 = Some res.
Proof.
  induction r as [|c|p|r1 IH1 r2 IH2|r1 IH1 r2 IH2|p|p|r IH|n r IH|];
    intros st k res H; cbn [run] in H.
  - exists [], st. repeat split; auto using matches; cbn; lia.
  - apply step_sound in H as (x & st1 & Hx & E & P & K).
    exists [x], st1. repeat split; auto using matches; cbn; lia.
  - apply step_sound in H as (x & st1 & Hx & E & P & K).
    exists [x], st1. repeat split; auto using matches; cbn; lia.
  - apply IH1 in H as (w1 & st1 & M1 & E1 & P1 & K1).
    apply IH2 in K1 as (w2 & st2 & M2 & E2 & P2 & K2).
    exists (w1 ++ w2), st2. rewrite length_app, <- app_assoc, <- E2.
    repeat split; auto using matches; lia.
  - apply or_else_some in H as [H|[_ H]].
    + apply IH1 in H as (w & st1 & M & E & P & K).
      exists w, st1. auto using matches.
    + apply IH2 in H as (w & st1 & M & E & P & K).
      exists w, st1. auto using matches.
  - apply star_sound in H as (w & st1 & Hw & E & P & K).
    exists w, st1. auto using matches.
  - apply star_sound in H as (w & st1 & Hw & E & P & K).
    exists w, st1. auto using matches.
  - apply or_else_some in H as [H|[_ H]].
    + apply IH in H as (w & st1 & M & E & P & K).
      destruct (Nat.eqb (pos st1) (pos st)); [discriminate|].
      exists w, st1. auto using matches.
    + exists [], st. repeat split; auto using matches; cbn; lia.
  - apply IH in H as (w & st1 & M & E & P & K).
    exists w, (capture n st st1). repeat split; auto using matches.
  - destruct (Nat.eqb (pos st) 0); [|discriminate].
    exists [], st. repeat split; auto using matches; cbn; lia.
Qed.

Lemma match_at_sound (r : regex) (inp : chars) (i : nat) (m : Match) :
  match_at r inp i = Some m ->
  exists w post, matches r w /\ inp = w ++ post /\
                 m_start m = i /\ m_end m = i + List.length w.
Proof.
  unfold match_at. destruct (run r (mkState inp i []) Some) as [st|] eqn:E;
    [|discriminate].
  intro H. injection H as <-.
  apply run_sound in E as (w & st1 & M & E1 & P & K).
  injection K as <-. cbn in *. exists w, (rest st1). auto.
Qed.

(** Where the pattern matches nowhere, a global search finds nothing
    and a replacement changes nothing. *)
Lemma never_tail (r : regex) (c : ascii) (inp : chars) :
  never r (c :: inp) -> never r inp.
Proof. intros H pre suf i E. apply (H (c :: pre)). now rewrite E. Qed.

Lemma scan_never (r : regex) (inp : chars) :
  never r inp -> forall i skip, scan r inp i skip = [].
Proof.
  induction inp as [|c inp IH]; intros N i skip.
  - destruct skip; cbn; [|reflexivity].
    now rewrite (N [] [] i eq_refl).
  - pose proof (IH (never_tail N)) as IH'.
    destruct skip; cbn; [|apply IH'].
    now rewrite (N [] (c :: inp) i eq_refl), IH'.
Qed.

Lemma replace_with_never (r : regex) (f : Match -> chars) (s : chars) :
  never r s -> replace_with r f s = s.
Proof.
  intro N. unfold replace_with, exec_all. now rewrite scan_never.
Qed.

Lemma occurs_app_l (x pre s : chars) : occurs x s -> occurs x (pre ++ s).
Proof.
  intros (a & b & ->). exists (pre ++ a), b. now rewrite app_assoc.
Qed.

Lemma occurs_app_r (x s post : chars) : occurs x s -> occurs x (s ++ post).
Proof.
  intros (a & b & ->). exists a, (b ++ post). now rewrite <- !app_assoc.
Qed.

(** A pattern all of whose words hold [x] matches nowhere in a text
    without [x]. *)
Lemma never_without (r : regex) (x inp : chars) :
  (forall w, matches r w -> occurs x w) ->
  ~ occurs x inp -> never r inp.
Proof.
  intros Hr Hx pre suf i ->.
  destruct (match_at r suf i) as [m|] eqn:E; [|reflexivity].
  exfalso. apply Hx.
  apply match_at_sound in E as (w & post & M & -> & _).
  apply occurs_app_l, occurs_app_r, Hr, M.
Qed.

Lemma matches_lit (s : string) (w : chars) :
  matches (lit s) w -> w = list_ascii_of_string s.
Proof.
  revert w. induction s as [|c s IH]; intros w M; cbn in *.
  - now inversion M.
  - inversion M as [| | |r1 r2 w1 w2 M1 M2| | | | | | | |]; subst.
    inversion M1 as [|c' x E| | | | | | | | | |]; subst.
    apply Ascii.eqb_eq in E. subst. cbn. f_equal. auto.
Qed.

Lemma matches_seq_occurs (x : chars) (r : regex) (rs : list regex) (w : chars) :
  In r rs -> (forall w', matches r w' -> occurs x w') ->
  matches (seq rs) w -> occurs x w.
Proof.
  intros Hin Hr. revert w. induction rs as [|r0 rs IH]; intros w M.
  - contradiction.
  - cbn in M. inversion M as [| | |r1 r2 w1 w2 M1 M2| | | | | | | |]; subst.
    destruct Hin as [->|Hin].
    + apply occurs_app_r, Hr, M1.
    + apply occurs_app_l, IH; assumption.
Qed.

Lemma lit_occurs (s : string) (w : chars) :
  matches (lit s) w -> occurs (list_ascii_of_string s) w.
Proof.
  intro M. apply matches_lit in M as ->. exists [], []. cbn.
  now rewrite app_nil_r.
Qed.

(** *** How the matcher runs *)


(** No way to split the input after a run of [p] lets [k] go on. *)
Lemma star_fails (g : bool) (p : cclass) (k : cont) (w : chars)
    (cs : list (nat * chars)) :
  forall i,
    (forall w1 w2, w = w1 ++ w2 -> Forall (fun x => p x = true) w1 ->
                   k (mkState w2 (i + List.length w1) cs) = None) ->
    star g p k w i cs = None.
Proof.
  induction w as [|c w IH]; intros i H.
  - pose proof (H [] [] eq_refl (Forall_nil _)) as H0.
    cbn in H0. rewrite Nat.add_0_r in H0.
    cbn. destruct g; cbn; now rewrite H0.
  - pose proof (H [] (c :: w) eq_refl (Forall_nil _)) as H0.
    cbn in H0. rewrite Nat.add_0_r in H0.
    assert (More : (if p c then star g p k w (S i) cs else None) = None).
    { destruct (p c) eqn:Hp; [|reflexivity]. apply IH.
      intros w1 w2 E F.
      specialize (H (c :: w1) w2). cbn in H.
      replace (S i + List.length w1) with (i + S (List.length w1)) by lia.
      apply H; [now rewrite E|now constructor]. }
    cbn. destruct g; cbn; now rewrite ?More, H0, ?More.
Qed.

(** [p*] gives back as little as it must: it stops after [u] when [k]
    goes on from there and from no point further right. *)
Lemma star_greedy (p : cclass) (k : cont) (u w : chars)
    (cs : list (nat * chars)) (res : mstate) :
  forall i,
    Forall (fun x => p x = true) u ->
    k (mkState w (i + List.length u) cs) = Some res ->
    (forall w1 w2, w = w1 ++ w2 -> w1 <> [] ->
                   Forall (fun x => p x = true) w1 ->
                   k (mkState w2 (i + List.length u + List.length w1) cs) = None) ->
    star true p k (u ++ w) i cs = Some res.
Proof.
  induction u as [|c u IH]; intros i Hu Hk Hw.
  - cbn in *. rewrite Nat.add_0_r in *.
    destruct w as [|c w]; cbn.
    + now rewrite Hk.
    + assert (More : (if p c then star true p k w (S i) cs else None) = None).
      { destruct (p c) eqn:Hp; [|reflexivity]. apply star_fails.
        intros w1 w2 E F.
        specialize (Hw (c :: w1) w2). cbn in Hw.
        replace (S i + List.length w1) with (i + S (List.length w1)) by lia.
        apply Hw; [now rewrite E|discriminate|now constructor]. }
      now rewrite More; cbn.
  - inversion Hu as [|? ? Hc Hu']; subst. cbn. rewrite Hc.
    rewrite (IH (S i)); [reflexivity|assumption| |].
    + cbn in Hk. now replace (S i + List.length u) with (i + S (List.length u)) by lia.
    + intros w1 w2 E N F. cbn in Hw.
      replace (S i + List.length u + List.length w1)
        with (i + S (List.length u) + List.length w1) by lia.
      now apply Hw.
Qed.

(** [p*?] takes as little as it can: it stops after [u] when [k] goes
    on from there and from no point further left. *)
Lemma star_lazy (p : cclass) (k : cont) (u w : chars)
    (cs : list (nat * chars)) (res : mstate) :
  forall i,
    Forall (fun x => p x = true) u ->
    k (mkState w (i + List.length u) cs) = Some res ->
    (forall u1 u2, u = u1 ++ u2 -> u2 <> [] ->
                   k (mkState (u2 ++ w) (i + List.length u1) cs) = None) ->
    star false p k (u ++ w) i cs = Some res.
Proof.
  induction u as [|c u IH]; intros i Hu Hk Hw.
  - cbn in *. rewrite Nat.add_0_r in *.
    destruct w as [|c w]; cbn; now rewrite Hk.
  - inversion Hu as [|? ? Hc Hu']; subst.
    pose proof (Hw [] (c :: u) eq_refl ltac:(discriminate)) as H0.
    cbn in H0. rewrite Nat.add_0_r in H0.
    cbn. rewrite H0. cbn. rewrite Hc.
    apply IH; [assumption| |].
    + cbn in Hk. now replace (S i + List.length u) with (i + S (List.length u)) by lia.
    + intros u1 u2 E N.
      specialize (Hw (c :: u1) u2). cbn in Hw.
      replace (S i + List.length u1) with (i + S (List.length u1)) by lia.
      apply Hw; [now rewrite E|assumption].
Qed.

(** Once a match has taken the whole input, the search has only the
    end of the text left to try. *)
Lemma scan_skip (r : regex) (inp : chars) :
  forall i, (forall j, match_at r [] j = None) ->
            scan r inp i (List.length inp) = [].
Proof.
  induction inp as [|c inp IH]; intros i H; cbn.
  - now rewrite H.
  - now apply IH.
Qed.

Lemma exec_all_whole (r : regex) (inp : chars) (m : Match) :
  inp <> [] ->
  match_at r inp 0 = Some m -> m_end m = List.length inp ->
  (forall j, match_at r [] j = None) ->
  exec_all r inp = [m].
Proof.
  intros N H E Z. unfold exec_all.
  destruct inp as [|c inp]; [contradiction|].
  cbn [scan]. rewrite H, E. cbn [List.length].
  replace (S (List.length inp) - 0 - 1) with (List.length inp) by lia.
  now rewrite scan_skip.
Qed.

(** *** The matches of a global search *)

Lemma apart_le (ms : list Match) (a b : nat) :
  a <= b -> apart b ms -> apart a ms.
Proof. destruct ms; cbn; [auto|]. intros H (H1 & H2 & H3). repeat split; auto; lia. Qed.

(** Every match that a global search reports is a match at its index. *)
Lemma scan_in (r : regex) (inp : chars) :
  forall i skip m,
    In m (scan r inp i skip) ->
    exists pre suf, inp = pre ++ suf /\
                    match_at r suf (i + List.length pre) = Some m.
Proof.
  induction inp as [|c inp IH]; intros i skip m H.
  - destruct skip; cbn in H; [|contradiction].
    destruct (match_at r [] i) as [m'|] eqn:E; [|contradiction].
    destruct H as [<-|[]]. exists [], []. cbn. now rewrite Nat.add_0_r.
  - assert (Next : forall k, In m (scan r inp (S i) k) ->
              exists pre suf, c :: inp = pre ++ suf /\
                match_at r suf (i + List.length pre) = Some m).
    { intros k Hk. destruct (IH _ _ _ Hk) as (pre & suf & -> & M).
      exists (c :: pre), suf. cbn. split; [reflexivity|].
      now replace (i + S (List.length pre)) with (S i + List.length pre) by lia. }
    destruct skip; cbn in H; [|eauto].
    destruct (match_at r (c :: inp) i) as [m'|] eqn:E; [|eauto].
    destruct H as [<-|H]; [|eauto].
    exists [], (c :: inp). cbn. now rewrite Nat.add_0_r.
Qed.

(** The matches of a global search come left to right and do not
    overlap. *)
Lemma scan_apart (r : regex) (inp : chars) :
  forall i skip, apart (i + skip) (scan r inp i skip).
Proof.
  induction inp as [|c inp IH]; intros i skip.
  - destruct skip; cbn; [|exact I].
    destruct (match_at r [] i) as [m|] eqn:E; cbn; [|exact I].
    apply match_at_sound in E as (w & post & _ & _ & -> & ->).
    repeat split; lia.
  - destruct skip; cbn.
    + destruct (match_at r (c :: inp) i) as [m|] eqn:E; cbn.
      * apply match_at_sound in E as (w & post & _ & _ & S0 & E0).
        rewrite S0, E0. repeat split; try lia.
        apply apart_le with (b := S i + (i + List.length w - i - 1));
          [lia|apply IH].
      * apply apart_le with (b := S i + 0); [lia|apply IH].
    + apply apart_le with (b := S i + skip); [lia|apply IH].
Qed.

Lemma slice_then_rest (s : chars) (a b : nat) :
  a <= b -> slice s a b ++ skipn b s = skipn a s.
Proof.
  intro H. unfold slice.
  replace (skipn b s) with (skipn (b - a) (skipn a s)).
  - apply firstn_skipn.
  - rewrite skipn_skipn. f_equal. lia.
Qed.

(** The matches, in order, with the text between them make up the
    text: putting each match back in its place changes nothing. *)
Lemma splice_matched (s : chars) (ms : list Match) :
  forall from, apart from ms -> splice (matched s) s from ms = skipn from s.
Proof.
  induction ms as [|m ms IH]; intros from H; cbn [splice]; [reflexivity|].
  destruct H as (H1 & H2 & H3).
  rewrite (IH _ H3). unfold matched.
  rewrite (slice_then_rest s H2). now apply slice_then_rest.
Qed.

Lemma replace_with_matched (r : regex) (s : chars) :
  replace_with r (matched s) s = s.
Proof.
  unfold replace_with, exec_all.
  now rewrite splice_matched by apply (scan_apart r s 0 0).
Qed.

(** What a global search reports is a piece of the text that the
    pattern can match. *)
Lemma match_global_in (r : regex) (s token : chars) :
  In token (match_global r s) ->
  matches r token /\ exists pre post, s = pre ++ token ++ post.
Proof.
  unfold match_global, exec_all. rewrite in_map_iff.
  intros (m & <- & Hm).
  apply scan_in in Hm as (pre & suf & -> & Hm).
  apply match_at_sound in Hm as (w & post & M & -> & S0 & E0).
  cbn in S0, E0. unfold matched, slice. rewrite S0, E0.
  replace (List.length pre + List.length w - List.length pre)
    with (List.length w) by lia.
  rewrite skipn_app, skipn_all, Nat.sub_diag. cbn.
  rewrite firstn_app, firstn_all, Nat.sub_diag. cbn. rewrite app_nil_r.
  split; [exact M|]. eauto.
Qed.

Lemma test_true (r : regex) (s : chars) :
  test r s = true <-> exists m, In m (exec_all r s).
Proof.
  unfold test. destruct (exec_all r s) as [|m ms].
  - split; [discriminate|]. intros (m & []).
  - split; [|reflexivity]. intros _. exists m. now left.
Qed.

Lemma scan_first (r : regex) (s : chars) (m : Match) :
  match_at r s 0 = Some m -> In m (exec_all r s).
Proof.
  intro H. unfold exec_all. destruct s; cbn; rewrite H; now left.
Qed.

(** *** A single match *)

(** A prefix in which no match begins is passed over. *)
Lemma scan_prefix (r : regex) (pre inp : chars) :
  forall i,
    (forall p1 p2, pre = p1 ++ p2 -> p2 <> [] ->
                   match_at r (p2 ++ inp) (i + List.length p1) = None) ->
    scan r (pre ++ inp) i 0 = scan r inp (i + List.length pre) 0.
Proof.
  induction pre as [|c pre IH]; intros i H.
  - cbn. now rewrite Nat.add_0_r.
  - cbn [app scan].
    pose proof (H [] (c :: pre) eq_refl ltac:(discriminate)) as H0.
    cbn in H0. rewrite Nat.add_0_r in H0. rewrite H0.
    rewrite IH.
    + cbn. f_equal. lia.
    + intros p1 p2 E N. specialize (H (c :: p1) p2). cbn in H.
      replace (S i + List.length p1) with (i + S (List.length p1)) by lia.
      apply H; [now rewrite E|exact N].
Qed.

(** The characters of a match are passed over. *)
Lemma scan_skip_app (r : regex) (w inp : chars) :
  forall i, scan r (w ++ inp) i (List.length w) =
            scan r inp (i + List.length w) 0.
Proof.
  induction w as [|c w IH]; intro i; cbn.
  - now rewrite Nat.add_0_r.
  - rewrite IH. f_equal. lia.
Qed.

(** A single match in the middle of a text. *)
Lemma exec_all_one (r : regex) (pre w post : chars) (m : Match) :
  (forall p1 p2, pre = p1 ++ p2 -> p2 <> [] ->
                 match_at r (p2 ++ w ++ post) (List.length p1) = None) ->
  w <> [] ->
  match_at r (w ++ post) (List.length pre) = Some m ->
  m_end m = List.length pre + List.length w ->
  never r post ->
  exec_all r (pre ++ w ++ post) = [m].
Proof.
  intros Hpre Hw Hm He Hpost. unfold exec_all.
  rewrite scan_prefix by exact Hpre. cbn [Nat.add].
  destruct w as [|c w]; [contradiction|].
  cbn [app scan]. cbn [app] in Hm. rewrite Hm, He. f_equal.
  replace (List.length pre + List.length (c :: w) - List.length pre - 1)
    with (List.length w) by (cbn; lia).
  rewrite scan_skip_app. now apply scan_never.
Qed.

Lemma never_first_char (r : regex) (q : ascii -> bool) (inp : chars) :
  (forall w, matches r w -> exists c w', w = c :: w' /\ q c = true) ->
  forall i, match inp with c :: _ => q c = false | [] => True end ->
            match_at r inp i = None.
Proof.
  intros Hr i H. destruct (match_at r inp i) as [m|] eqn:E; [|reflexivity].
  apply match_at_sound in E as (w & post & M & -> & _).
  apply Hr in M as (c & w' & -> & Hc). cbn in H. congruence.
Qed.

Lemma never_no_char (r : regex) (q : ascii -> bool) (inp : chars) :
  (forall w, matches r w -> Exists (fun c => q c = true) w) ->
  Forall (fun c => q c = false) inp -> never r inp.
Proof.
  intros Hr Hq pre suf i ->.
  destruct (match_at r suf i) as [m|] eqn:E; [|reflexivity].
  apply match_at_sound in E as (w & post & M & -> & _).
  apply Hr, Exists_exists in M as (c & Hin & Hc).
  rewrite Forall_forall in Hq.
  rewrite (Hq c) in Hc; [discriminate|].
  apply in_or_app. right. apply in_or_app. now left.
Qed.

(** *** Taking a word apart *)

Lemma matches_cat (r1 r2 : regex) (w : chars) :
  matches (Cat r1 r2) w ->
  exists w1 w2, w = w1 ++ w2 /\ matches r1 w1 /\ matches r2 w2.
Proof. intro M. inversion M; subst. eauto. Qed.

Lemma matches_empty (w : chars) : matches Empty w -> w = [].
Proof. intro M. now inversion M. Qed.

Lemma matches_class (p : cclass) (w : chars) :
  matches (Class p) w -> exists x, w = [x] /\ p x = true.
Proof. intro M. inversion M; subst. eauto. Qed.

Lemma matches_star (p : cclass) (w : chars) :
  matches (Star p) w -> Forall (fun x => p x = true) w.
Proof. intro M. now inversion M. Qed.

Lemma matches_lazy (p : cclass) (w : chars) :
  matches (LazyStar p) w -> Forall (fun x => p x = true) w.
Proof. intro M. now inversion M. Qed.

Lemma matches_opt (r : regex) (w : chars) :
  matches (Opt r) w -> w = [] \/ matches r w.
Proof. intro M. inversion M; subst; auto. Qed.

Lemma matches_start (w : chars) : matches Start w -> w = [].
Proof. intro M. now inversion M. Qed.

Lemma matches_char (c : ascii) (w : chars) : matches (Char c) w -> w = [c].
Proof.
  intro M. inversion M as [|c' x E| | | | | | | | | |]; subst.
  apply Ascii.eqb_eq in E. now subst.
Qed.

Lemma matches_seq_exists (q : ascii -> Prop) (r : regex) (rs : list regex)
    (w : chars) :
  In r rs -> (forall w', matches r w' -> Exists q w') ->
  matches (seq rs) w -> Exists q w.
Proof.
  intros Hin Hr. revert w. induction rs as [|r0 rs IH]; intros w M.
  - contradiction.
  - cbn in M. apply matches_cat in M as (w1 & w2 & -> & M1 & M2).
    apply Exists_app. destruct Hin as [->|Hin]; [left|right]; auto.
Qed.

Lemma matches_group (n : nat) (r : regex) (w : chars) :
  matches (Group n r) w -> matches r w.
Proof. intro M. now inversion M. Qed.

Lemma matches_alt (r1 r2 : regex) (w : chars) :
  matches (Alt r1 r2) w -> matches r1 w \/ matches r2 w.
Proof. intro M. inversion M; subst; auto. Qed.

End RegExpFacts.

(** ** Link engine *)

Import RegExp Lang RegExpFacts.

Lemma L_app (a b : string) : L (a ++ b) = (L a ++ L b)%list.
Proof. induction a as [|c a IH]; cbn; [reflexivity|]. f_equal. exact IH. Qed.

Lemma S_L (s : string) : S_ (L s) = s.
Proof. apply string_of_list_ascii_of_string. Qed.

Lemma L_S (s : chars) : L (S_ s) = s.
Proof. apply list_ascii_of_string_of_list_ascii. Qed.


(** *** Arrow tokens *)

Module LinkFacts.
Local Open Scope list_scope.

Lemma has_pair_sound (x y : ascii) (s : chars) :
  has_pair x y s = false -> forall a b, s <> a ++ x :: y :: b.
Proof.
  induction s as [|c s IH]; intros H a b E.
  - destruct a; discriminate.
  - destruct s as [|c' s].
    + destruct a as [|? [|? ?]]; discriminate.
    + cbn [has_pair] in H. apply orb_false_iff in H as [H1 H2].
      destruct a as [|a0 a].
      * cbn in E. injection E as -> -> _. now rewrite !Ascii.eqb_refl in H1.
      * cbn in E. injection E as _ E. exact (IH H2 a b E).
Qed.


Lemma firstn_exact (A : Type) (u v : list A) (n : nat) :
  n = List.length u -> firstn n (u ++ v) = u.
Proof.
  intros ->. rewrite firstn_app, Nat.sub_diag, firstn_all. cbn.
  apply app_nil_r.
Qed.


Lemma step_pair_fails (x y : ascii) (st : mstate) (k : cont) :
  (forall b, rest st <> x :: y :: b) ->
  step (Ascii.eqb x) st (fun st1 => step (Ascii.eqb y) st1 k) = None.
Proof.
  intro H. unfold step.
  destruct (rest st) as [|a [|b inp]]; [reflexivity| |];
    (destruct (Ascii.eqb x a) eqn:Ea; [|reflexivity]); cbn [rest];
    [reflexivity|].
  destruct (Ascii.eqb y b) eqn:Eb; [|reflexivity].
  apply Ascii.eqb_eq in Ea, Eb. subst. now destruct (H inp).
Qed.



Lemma slice_empty (s : chars) (i : nat) : slice s i i = [].
Proof. unfold slice. now rewrite Nat.sub_diag. Qed.


(** A match of the whole text leaves what the replacer makes of it. *)
Lemma replace_with_whole (r : regex) (f : Match -> chars) (s : chars)
    (m : Match) :
  s <> [] -> match_at r s 0 = Some m -> m_end m = List.length s ->
  (forall j, match_at r [] j = None) ->
  replace_with r f s = f m.
Proof.
  intros N H E Z. unfold replace_with.
  rewrite (exec_all_whole r N H E Z). cbn [splice].
  apply match_at_sound in H as (w & post & _ & _ & S0 & _).
  rewrite S0, E, slice_empty, skipn_all. cbn. apply app_nil_r.
Qed.


Lemma never_without_either (r : regex) (x y inp : chars) :
  (forall w, matches r w -> occurs x w \/ occurs y w) ->
  ~ occurs x inp -> ~ occurs y inp -> never r inp.
Proof.
  intros Hr Hx Hy pre suf i ->.
  destruct (match_at r suf i) as [m|] eqn:E; [|reflexivity].
  exfalso.
  apply match_at_sound in E as (w & post & M & -> & _).
  destruct (Hr w M) as [O|O]; [apply Hx|apply Hy];
    apply occurs_app_l, occurs_app_r, O.
Qed.

Lemma plain_chars (s : string) :
  plain s = true -> Forall (fun c => plain_char c = true) (L s).
Proof. unfold plain. rewrite forallb_forall, Forall_forall. auto. Qed.




Lemma plain_dot (s : chars) :
  Forall (fun c => plain_char c = true) s -> Forall (fun x => dot x = true) s.
Proof.
  apply Forall_impl. intros c H. unfold plain_char, dot in *.
  cbn in *. destruct (Ascii.eqb c "010"), (Ascii.eqb c "013");
    rewrite ?orb_true_r in *; cbn in *; auto; discriminate.
Qed.







(** A token is a pair of opening brackets, a run without line break,
    and a pair of closing brackets. *)
Lemma token_shape (w : chars) :
  matches linkToken w ->
  exists x, w = L "[[" ++ x ++ L "]]" /\ Forall (fun c => dot c = true) x.
Proof.
  unfold linkToken; cbn [seq]. intro M.
  apply matches_cat in M as (w1 & wa & -> & M1 & M).
  apply matches_cat in M as (x & wb & -> & M2 & M).
  apply matches_cat in M as (w3 & wc & -> & M3 & M).
  apply matches_empty in M as ->.
  apply matches_lit in M1 as ->. apply matches_lit in M3 as ->.
  apply matches_lazy in M2. exists x. now rewrite app_nil_r.
Qed.

(** *** The absolute-URI pattern *)

Lemma absoluteUri_anchored (suf : chars) (i : nat) :
  i <> 0 -> match_at absoluteUri suf i = None.
Proof.
  intro H. unfold match_at, absoluteUri. cbn [seq run pos].
  apply Nat.eqb_neq in H. now rewrite H.
Qed.

Lemma absoluteUri_sound (s : chars) (m : Match) :
  match_at absoluteUri s 0 = Some m -> has_scheme s.
Proof.
  intro H. apply match_at_sound in H as (w & post & M & -> & _).
  unfold absoluteUri, plus in M; cbn [seq] in M.
  apply matches_cat in M as (w0 & wa & -> & M0 & M).
  apply matches_cat in M as (w1 & wb & -> & M1 & M).
  apply matches_cat in M as (w2 & wc & -> & M2 & M).
  apply matches_cat in M as (w3 & wd & -> & M3 & M).
  apply matches_cat in M as (w4 & we & -> & M4 & M).
  apply matches_empty in M as ->.
  apply matches_start in M0 as ->.
  apply matches_cat in M1 as (h & tl & -> & Mh & Mt).
  apply matches_class in Mh as (x & -> & Hx).
  apply matches_star in Mt.
  apply matches_lit in M2 as ->.
  apply matches_class in M4 as (c & -> & Hc).
  exists ([x] ++ tl), c, post.
  split; [discriminate|]. split; [now constructor|]. split; [exact Hc|].
  apply matches_opt in M3 as [->|M3].
  - left. cbn. now rewrite <- !app_assoc.
  - right. apply matches_char in M3 as ->. cbn. now rewrite <- !app_assoc.
Qed.

Lemma word_not_colon : word ":"%char = false.
Proof. reflexivity. Qed.

Lemma word_not_slash (c : ascii) : word c = true -> Ascii.eqb "/"%char c = false.
Proof.
  intro H. destruct (Ascii.eqb "/"%char c) eqn:E; [|reflexivity].
  apply Ascii.eqb_eq in E. subst. discriminate.
Qed.

Lemma absoluteUri_complete (s : chars) :
  has_scheme s -> exists m, match_at absoluteUri s 0 = Some m.
Proof.
  intros (scheme & c & more & N & Hs & Hc & E).
  destruct scheme as [|x tl]; [contradiction|]. inversion Hs as [|? ? Hx Ht]; subst.
  unfold match_at, absoluteUri, plus. cbn [seq]. cbn [run lit pos].
  cbn [Nat.eqb]. unfold step at 1. cbn [rest pos caps].
  destruct E as [-> | ->]; cbn [app rest]; rewrite Hx.
  - rewrite star_greedy with (u := tl) (w := L "://" ++ c :: more)
      (res := mkState more (1 + List.length tl + 4) []); [eauto|exact Ht| |].
    + unfold step; cbn [L list_ascii_of_string app rest pos caps].
      rewrite !Ascii.eqb_refl. cbn [rest pos caps].
      rewrite (word_not_slash _ Hc). cbn [or_else]. rewrite Hc.
      do 2 f_equal. lia.
    + intros w1 w2 E N' F. destruct w1 as [|y w1]; [contradiction|].
      cbn in E. injection E as <- _. inversion F; subst. discriminate.
  - rewrite star_greedy with (u := tl) (w := L ":///" ++ c :: more)
      (res := mkState more (1 + List.length tl + 5) []); [eauto|exact Ht| |].
    + unfold step; cbn [L list_ascii_of_string app rest pos caps].
      rewrite !Ascii.eqb_refl. cbn [rest pos caps].
      match goal with
      | |- context [Nat.eqb ?a ?b] =>
          replace (Nat.eqb a b) with false by (symmetry; apply Nat.eqb_neq; lia)
      end.
      rewrite Hc. cbn [or_else]. do 2 f_equal. lia.
    + intros w1 w2 E N' F. destruct w1 as [|y w1]; [contradiction|].
      cbn in E. injection E as <- _. inversion F; subst. discriminate.
Qed.

(** The absolute-URI pattern matches the texts that begin with a scheme. *)
Lemma absoluteUri_test (s : chars) :
  test absoluteUri s = true <-> has_scheme s.
Proof.
  rewrite test_true. split.
  - intros (m & Hm). apply scan_in in Hm as (pre & suf & -> & Hm).
    destruct pre as [|c pre].
    + now apply absoluteUri_sound in Hm.
    + now rewrite absoluteUri_anchored in Hm.
  - intro H. apply absoluteUri_complete in H as (m & H).
    exists m. now apply scan_first.
Qed.

End LinkFacts.

Import LinkFacts.

(** *** Collecting the targets *)

Lemma has_key_cons (k : string) (keys : list string) (y : string) :
  has_key (k :: keys) y = String.eqb y k || has_key keys y.
Proof. reflexivity. Qed.

Lemma filter_filter (A : Type) (f g : A -> bool) (l : list A) :
  filter f (filter g l) = filter (fun x => g x && f x) l.
Proof.
  induction l as [|x l IH]; cbn; [reflexivity|].
  destruct (g x); cbn; [destruct (f x)|]; now rewrite IH.
Qed.

(** The loop reports the reportable targets, each where first seen. *)
Lemma collect_first_seen (matches : list chars) :
  forall found result,
    collect matches found result =
    (result ++ filter (fun y => negb (has_key found y))
                 (first_seen (filter reportable (map target_of matches))))%list.
Proof.
  induction matches as [|token ms IH]; intros found result; cbn [collect].
  - cbn. now rewrite app_nil_r.
  - cbn [map filter]. fold (target_of token).
    set (link := target_of token).
    unfold reads_undefined, reportable.
    destruct (String.eqb link "") eqn:E0; cbn [negb andb]; [apply IH|].
    destruct (has_key object_prototype_keys link) eqn:Ep;
      rewrite ?orb_true_r; cbn [negb andb]; [apply IH|].
    rewrite orb_false_r.
    destruct (has_key found link) eqn:Ef; cbn [negb first_seen filter].
    + rewrite Ef. cbn [negb]. rewrite IH. f_equal.
      rewrite filter_filter. apply filter_ext_in. intros y _.
      destruct (String.eqb y link) eqn:Ey; cbn; [|reflexivity].
      apply String.eqb_eq in Ey. subst y. now rewrite Ef.
    + rewrite Ef. cbn [negb]. rewrite IH, <- app_assoc. cbn [app]. do 2 f_equal.
      rewrite filter_filter. apply filter_ext_in. intros y _.
      rewrite has_key_cons. now rewrite negb_orb.
Qed.

Lemma links_first_seen (this : Passage) :
  links false this =
  first_seen (filter reportable
                (map target_of (match_global linkToken (L (text this))))).
Proof.
  unfold links. rewrite collect_first_seen. cbn [app].
  rewrite <- (filter_ext_in (fun _ => true)) by reflexivity.
  induction (first_seen _) as [|x l IH]; cbn; [reflexivity|now rewrite IH].
Qed.

Lemma first_seen_in (x : string) (l : list string) :
  In x (first_seen l) <-> In x l.
Proof.
  induction l as [|y l IH]; cbn; [tauto|].
  rewrite filter_In, IH, negb_true_iff, String.eqb_neq.
  destruct (string_dec y x); [subst|]; intuition congruence.
Qed.

Lemma first_seen_NoDup (l : list string) : NoDup (first_seen l).
Proof.
  induction l as [|y l IH]; cbn; constructor.
  - rewrite filter_In, String.eqb_refl. cbn. intros [_ H]. discriminate.
  - now apply NoDup_filter.
Qed.

(** C3 at the failing input: the text [[[constructor]]] is one token
    and resolves to the target [constructor], yet [links] returns
    nothing, [found.constructor] being inherited from
    [Object.prototype] and so not [undefined]. *)
Theorem links_drops_prototype_name :
  match_global linkToken (L "[[constructor]]") = [L "[[constructor]]"] /\
  target_of (L "[[constructor]]") = "constructor" /\
  links false (passage_with "[[constructor]]") = [].
Proof. repeat split; vm_compute; reflexivity. Qed.

(** What holds of every text: no target twice, none empty, and the
    targets are those of the tokens. *)
Lemma links_no_repetition (this : Passage) :
  NoDup (links false this) /\
  ~ In "" (links false this) /\
  (forall x, In x (links false this) <->
             reportable x = true /\
             exists token, In token (match_global linkToken (L (text this))) /\
                           target_of token = x) /\
  links false (passage_with "[[Foo]] and [[Foo]]") = ["Foo"].
Proof.
  rewrite links_first_seen. repeat split.
  - apply first_seen_NoDup.
  - rewrite first_seen_in, filter_In. intros [_ H]. discriminate.
  - rewrite first_seen_in, filter_In in H. tauto.
  - rewrite first_seen_in, filter_In, in_map_iff in H.
    destruct H as [(tok & E & I) _]. eauto.
  - intros (R & tok & I & E). rewrite first_seen_in, filter_In, in_map_iff.
    eauto.
Qed.

(** The tokens are pieces of the text, each a bracketed run without
    line break; taken in order with the text between them they make up
    the text. *)
Lemma tokens_of_text (s : chars) :
  (forall token, In token (match_global linkToken s) ->
     (exists x, token = (L "[[" ++ x ++ L "]]")%list /\
                Forall (fun c => dot c = true) x) /\
     exists pre post, s = (pre ++ token ++ post)%list) /\
  apart 0 (exec_all linkToken s) /\
  replace_with linkToken (matched s) s = s.
Proof.
  repeat split.
  - apply match_global_in in H as [M _]. now apply token_shape.
  - apply match_global_in in H as [_ H]. exact H.
  - apply (scan_apart linkToken s 0 0).
  - apply replace_with_matched.
Qed.

(** *** Arrow links and the internal filter *)

Lemma token_text (u : string) :
  "[[" ++ u ++ "]]" = S_ (L "[[" ++ L u ++ L "]]")%list.
Proof. now rewrite <- !L_app, S_L. Qed.



(** With nothing before the [<-] the replacer falls through to the text
    after it: [c || d] with [c] empty. *)
Lemma links_reverse_arrow_empty_target :
  links false (passage_with "[[<-A]]") = ["A"] /\
  links false (passage_with "[[A->]]") = [].
Proof. split; vm_compute; reflexivity. Qed.

(** C5. With [internalOnly] the result is that without it, less the
    targets that begin with a scheme, which are those the pattern of
    line 189 matches; the text [[[http://x.com]]] gives nothing with the
    filter and its target without. *)
Theorem links_internal_only (this : Passage) :
  links true this = filter is_internal (links false this) /\
  (forall x, In x (links true this) <->
             In x (links false this) /\ ~ has_scheme (L x)) /\
  links true (passage_with "[[http://x.com]]") = [] /\
  links false (passage_with "[[http://x.com]]") = ["http://x.com"].
Proof.
  assert (U : forall x, is_internal x = true <-> ~ has_scheme (L x)).
  { intro x. unfold is_internal. rewrite <- absoluteUri_test.
    destruct (test absoluteUri (L x)); cbn; intuition congruence. }
  repeat split; try reflexivity.
  - apply filter_In in H. tauto.
  - apply filter_In in H as [_ H]. now apply U.
  - intros [H1 H2].
    change (links true this) with (filter is_internal (links false this)).
    apply filter_In. split; [exact H1|]. now apply U.
Qed.

(** *** Rewriting *)

Lemma plain_not_syntax (c : ascii) :
  negb (syntax_char c) = true ->
  atom c = Some (Char c) /\ Ascii.eqb c "?" = false.
Proof.
  intro H. apply negb_true_iff in H. unfold atom. rewrite H.
  destruct (Ascii.eqb c ".") eqn:E1; [apply Ascii.eqb_eq in E1; now subst|].
  destruct (Ascii.eqb c "?") eqn:E2; [apply Ascii.eqb_eq in E2; now subst|].
  auto.
Qed.

(** A name without syntax characters is read as itself. *)
Lemma name_pattern_plain (oldLink : string) :
  plain_name oldLink = true -> name_pattern oldLink = Some (lit oldLink).
Proof.
  unfold plain_name, name_pattern.
  induction oldLink as [|c s IH]; [reflexivity|].
  cbn [L list_ascii_of_string forallb]. intro H.
  apply andb_true_iff in H as [Hc Hs].
  destruct (plain_not_syntax _ Hc) as [Ha _].
  cbn [parse_name]. rewrite Ha. fold (L s).
  destruct s as [|q s']; [reflexivity|].
  cbn [L list_ascii_of_string]. fold (L s').
  cbn [L list_ascii_of_string forallb] in Hs.
  pose proof Hs as Hs'. apply andb_true_iff in Hs' as [Hq _].
  destruct (plain_not_syntax _ Hq) as [_ Eq]. rewrite Eq.
  change (q :: L s') with (L (String q s')). now rewrite (IH Hs).
Qed.

Lemma replace_template_never (r : regex) (n : nat) (tpl s : chars) :
  never r s -> replace_template r n tpl s = s.
Proof. apply replace_with_never. Qed.


Module RewriteFacts.
Local Open Scope list_scope.

Lemma quiet_chars (s : string) :
  quiet s = true -> Forall (fun c => quiet_char c = true) (L s).
Proof. unfold quiet. rewrite forallb_forall, Forall_forall. auto. Qed.





Lemma skipn_exact (A : Type) (u v : list A) (n : nat) :
  n = List.length u -> skipn n (u ++ v) = v.
Proof.
  intros ->. rewrite skipn_app, skipn_all, Nat.sub_diag. reflexivity.
Qed.



Lemma quiet_without (l : list ascii) (s : chars) :
  incl l ["["%char; "|"%char; "<"%char; ">"%char; "$"%char] ->
  Forall (fun c => quiet_char c = true) s -> without l s.
Proof.
  intro Hl. apply Forall_impl. intros c Hc.
  destruct (existsb (Ascii.eqb c) l) eqn:E; [|reflexivity].
  apply existsb_exists in E as (x & Hx & E). apply Ascii.eqb_eq in E. subst x.
  apply Hl in Hx. unfold quiet_char in Hc. apply negb_true_iff in Hc.
  assert (X : existsb (Ascii.eqb c)
                ["["%char; "|"%char; "<"%char; ">"%char; "$"%char] = true).
  { apply existsb_exists. exists c. split; [exact Hx|apply Ascii.eqb_refl]. }
  congruence.
Qed.

Lemma without_app (l : list ascii) (a b : chars) :
  without l a -> without l b -> without l (a ++ b).
Proof. intros. apply Forall_app. now split. Qed.

Lemma compound_never (old : regex) (s : chars) :
  without ["|"%char; ">"%char] s -> never (compoundLinkRegexp old) s.
Proof.
  intro Hs.
  apply never_no_char
    with (q := fun c => existsb (Ascii.eqb c) ["|"%char; ">"%char]);
    [|exact Hs].
  intros w M. unfold compoundLinkRegexp in M.
  apply matches_seq_exists
    with (q := fun c => existsb (Ascii.eqb c) ["|"%char; ">"%char] = true)
         (r := Group 2 (Alt (lit "|") (lit "->"))) in M;
    [exact M | cbn; tauto |].
  intros w' M'. apply matches_group, matches_alt in M' as [M'|M'];
    apply matches_lit in M' as ->; cbn; auto.
Qed.

Lemma reverse_never (old : regex) (s : chars) :
  without ["<"%char] s -> never (reverseLinkRegexp old) s.
Proof.
  intro Hs.
  apply never_no_char with (q := fun c => existsb (Ascii.eqb c) ["<"%char]);
    [|exact Hs].
  intros w M. unfold reverseLinkRegexp in M.
  apply matches_seq_exists
    with (q := fun c => existsb (Ascii.eqb c) ["<"%char] = true)
         (r := Group 1 (seq [lit "<-"; LazyStar dot])) in M;
    [exact M | cbn; tauto |].
  intros w' M'. apply matches_group in M'. cbn [seq] in M'.
  apply matches_cat in M' as (w1 & w2 & -> & M1 & _).
  apply matches_lit in M1 as ->. cbn. auto.
Qed.


Lemma starts_with_spec (x s : chars) :
  starts_with x s = true <-> exists post, s = x ++ post.
Proof.
  revert s. induction x as [|a x IH]; intro s; cbn.
  - split; eauto.
  - destruct s as [|b s].
    + split; [discriminate|]. intros (post & E). discriminate.
    + rewrite andb_true_iff, Ascii.eqb_eq, IH. split.
      * intros [-> (post & ->)]. eauto.
      * intros (post & E). injection E as -> ->. eauto.
Qed.

Lemma occursb_spec (x s : chars) : occursb x s = true <-> occurs x s.
Proof.
  induction s as [|b s IH]; cbn [occursb]; rewrite orb_true_iff, starts_with_spec.
  - split.
    + intros [(post & E)|H]; [|discriminate]. exists [], post. exact E.
    + intros (pre & post & E). left. destruct pre; [|discriminate]. eauto.
  - rewrite IH. split.
    + intros [(post & E)|(pre & post & ->)].
      * exists [], post. exact E.
      * exists (b :: pre), post. reflexivity.
    + intros (pre & post & E). destruct pre as [|c pre].
      * left. eauto.
      * right. injection E as -> ->. exists pre, post. reflexivity.
Qed.

Lemma not_mentioned (name text : string) :
  mentions name text = false -> ~ occurs (L name) (L text).
Proof.
  unfold mentions. intros H O. apply occursb_spec in O. congruence.
Qed.

(** A text that begins [a ++ c :: b], with [c] not in [x]: if it begins
    with [x] too, then [x] is at the start of [a]. *)
Lemma prefix_before (x r a b : chars) (c : ascii) :
  ~ In c x -> x ++ r = a ++ c :: b -> exists a', a = x ++ a'.
Proof.
  revert a. induction x as [|y x IH]; intros a Hc E.
  - exists a. reflexivity.
  - destruct a as [|z a]; cbn in E.
    + injection E as -> _. exfalso. apply Hc. now left.
    + injection E as -> E. destruct (IH a) as (a' & ->); auto.
      * intro H. apply Hc. now right.
      * exists a'. reflexivity.
Qed.

(** An occurrence of [x] does not straddle a character that [x] lacks. *)
Lemma occurs_split (x a b : chars) (c : ascii) :
  ~ In c x -> occurs x (a ++ c :: b) -> occurs x a \/ occurs x b.
Proof.
  intros Hc (pre & post & E). revert a E.
  induction pre as [|z pre IH]; intros a E.
  - cbn in E. symmetry in E. apply prefix_before in E as (a' & ->); auto.
    left. exists [], a'. reflexivity.
  - destruct a as [|y a]; cbn in E.
    + injection E as _ ->. right. exists pre, post. reflexivity.
    + injection E as Ey E. subst y.
      destruct (IH a E) as [O|O]; [left|right]; auto.
      destruct O as (p & q & ->). exists (z :: p), q. reflexivity.
Qed.


Lemma plain_name_chars (s : string) (c : ascii) :
  plain_name s = true -> syntax_char c = true -> ~ In c (L s).
Proof.
  unfold plain_name. rewrite forallb_forall. intros H Hc I.
  apply H in I. now rewrite Hc in I.
Qed.

Lemma not_occurs_nil (x : chars) : x <> [] -> ~ occurs x [].
Proof. intros N (pre & post & E). destruct pre, x; try discriminate; auto. Qed.





End RewriteFacts.

Import RewriteFacts.




(** ** Further properties of the link engine *)

Lemma links_filtered (b : bool) (this : Passage) :
  links b this =
  filter (fun x => if b then is_internal x else true) (links false this).
Proof.
  destruct b; [reflexivity|].
  induction (links false this) as [|x l IH]; cbn; [reflexivity|now f_equal].
Qed.

(** X12.  [links] returns the targets of the tokens that it can
    report, each once and in the order in which they first occur; with
    [internalOnly] the targets with a scheme are then left out. *)
Theorem links_in_order_of_first_occurrence (internalOnly : bool)
    (this : Passage) :
  links internalOnly this =
  filter (fun x => if internalOnly then is_internal x else true)
    (first_seen
       (filter reportable
          (map target_of (match_global linkToken (L (text this)))))).
Proof.
  rewrite links_filtered. f_equal. apply links_first_seen.
Qed.

(** X13.  Whatever the flag, [links] names no target twice, and every
    target it names is not empty, is not the name of a property of
    [Object.prototype], and is what a token of the text resolves to. *)
Theorem links_distinct_targets_of_tokens (internalOnly : bool)
    (this : Passage) :
  NoDup (links internalOnly this) /\
  forall x, In x (links internalOnly this) ->
    x <> "" /\ has_key object_prototype_keys x = false /\
    exists token pre post,
      In token (match_global linkToken (L (text this))) /\
      L (text this) = (pre ++ token ++ post)%list /\
      target_of token = x.
Proof.
  rewrite links_filtered, links_first_seen. split.
  - apply NoDup_filter, first_seen_NoDup.
  - intros x H. apply filter_In in H as [H _].
    rewrite first_seen_in, filter_In, in_map_iff in H.
    destruct H as [(tok & E & I) R].
    unfold reportable in R. apply andb_true_iff in R as [R1 R2].
    apply negb_true_iff in R1, R2. apply String.eqb_neq in R1.
    repeat split; auto.
    destruct (match_global_in _ _ _ I) as (_ & pre & post & Es).
    exists tok, pre, post. auto.
Qed.

(** X14.  A text without a pair of opening brackets, the empty text
    among them, has no links. *)
Theorem links_none_without_brackets (internalOnly : bool) (this : Passage) :
  mentions "[[" (text this) = false -> links internalOnly this = [].
Proof.
  intro H. apply not_mentioned in H.
  rewrite links_filtered. unfold links.
  unfold match_global, exec_all.
  rewrite scan_never; [reflexivity|].
  apply never_without with (x := L "[["); [|exact H].
  intro w. apply matches_seq_occurs with (r := lit "[[");
    [cbn; tauto|apply lit_occurs].
Qed.

Lemma links_none_without_brackets_witness :
  links false (passage_with "") = [] /\
  links true (passage_with "a [bracket] and an arrow -> here") = [].
Proof.
  split; apply links_none_without_brackets; reflexivity.
Defined.
(** *** The forms of a link *)

Module FormFacts.
Local Open Scope list_scope.

Lemma brackets_first (w : chars) :
  matches brackets w ->
  exists c w', w = c :: w' /\ (Ascii.eqb c "[" || Ascii.eqb c "]") = true.
Proof.
  intro M. apply matches_alt in M as [M|M].
  - apply matches_lit in M. subst. cbn. eauto.
  - cbn [seq] in M. apply matches_cat in M as (w1 & w2 & -> & M1 & M2).
    apply matches_cat in M2 as (w3 & w4 & -> & M3 & M4).
    apply matches_lit in M3. apply matches_empty in M4. subst.
    unfold setter in M1. apply matches_opt in M1 as [->|M1].
    + cbn. eauto.
    + cbn [seq] in M1. apply matches_cat in M1 as (v1 & v2 & -> & N1 & N2).
      apply matches_lit in N1. subst. cbn. eauto.
Qed.

Lemma plain_first (c : ascii) :
  plain_char c = true -> (Ascii.eqb c "[" || Ascii.eqb c "]") = false.
Proof.
  unfold plain_char. cbn. intro H. apply negb_true_iff in H.
  destruct (Ascii.eqb c "["); [discriminate|].
  destruct (Ascii.eqb c "]"); [discriminate|reflexivity].
Qed.

Lemma closes_bare : closes [].
Proof. intro i. cbn. unfold match_at. cbn. do 2 f_equal. lia. Qed.

Lemma closes_setter (s : chars) :
  Forall (fun c => plain_char c = true) s -> closes (L "][" ++ s).
Proof.
  intros Hs i. unfold match_at, brackets, setter.
  cbn [seq]. cbn [run lit].
  cbn [L list_ascii_of_string app step rest pos caps].
  change (Ascii.eqb "[" "]") with false. cbn [or_else].
  rewrite !Ascii.eqb_refl. cbn [rest pos caps].
  rewrite star_lazy with (u := s) (w := L "]]")
    (res := mkState [] (i + List.length (L "][" ++ s) + 2) []).
  - cbn [or_else]. reflexivity.
  - now apply plain_dot.
  - cbn [pos rest caps].
    replace (Nat.eqb (S (S i) + List.length s) i) with false
      by (symmetry; apply Nat.eqb_neq; lia).
    cbn. do 2 f_equal. cbn [List.length app]. lia.
  - intros u1 u2 E N. cbn [pos rest caps].
    destruct (Nat.eqb _ i); [reflexivity|].
    apply step_pair_fails. cbn [rest]. intros b E2.
    destruct u2 as [|c u2]; [contradiction|]. cbn in E2. injection E2 as -> _.
    subst s. apply Forall_app in Hs as [_ Hs]. inversion Hs; subst.
    discriminate.
Qed.

(** The third replacement strips the brackets and the setter. *)
Lemma brackets_strip (t tail : chars) :
  Forall (fun c => plain_char c = true) t -> closes tail ->
  replace_template brackets 0 [] (L "[[" ++ t ++ tail ++ L "]]") = t.
Proof.
  intros Ht Hc. unfold replace_template, replace_with, exec_all.
  set (s := L "[[" ++ t ++ tail ++ L "]]").
  assert (E : scan brackets s 0 0 =
              [mkMatch 0 2 [];
               mkMatch (2 + List.length t)
                       (2 + List.length t + List.length tail + 2) []]).
  { unfold s. cbn [L list_ascii_of_string app].
    cbn [scan]. 
    replace (match_at brackets ("["%char :: "["%char :: t ++ tail ++ ["]"%char; "]"%char]) 0)
      with (Some (mkMatch 0 2 [])) by reflexivity.
    cbn [m_end Nat.sub]. f_equal.
    rewrite scan_prefix.
    - specialize (Hc (2 + List.length t)).
      destruct (tail ++ L "]]") as [|c more] eqn:Et.
      + destruct tail; discriminate.
      + change (tail ++ ["]"%char; "]"%char]) with (tail ++ L "]]").
        rewrite Et. cbn [scan]. rewrite Hc. cbn [m_end]. f_equal.
        assert (El : List.length (c :: more) = List.length tail + 2)
          by (rewrite <- Et, length_app; reflexivity).
        cbn [List.length] in El.
        replace (2 + List.length t + List.length tail + 2
                 - (2 + List.length t) - 1) with (List.length more) by lia.
        destruct more as [|c' more']; [cbn in El; lia|].
        cbn [scan List.length]. apply scan_skip. reflexivity.
    - intros p1 p2 E N. apply never_first_char
        with (q := fun c => Ascii.eqb c "[" || Ascii.eqb c "]").
      + exact brackets_first.
      + destruct p2 as [|c p2]; [contradiction|]. cbn [app].
        apply plain_first. subst t. apply Forall_app in Ht as [_ Ht].
        now inversion Ht. }
  rewrite E. cbn [splice m_start m_end expand].
  unfold s, slice. cbn [Nat.sub skipn firstn app L list_ascii_of_string].
  replace (2 + List.length t - 2) with (List.length t) by lia.
  rewrite firstn_exact by reflexivity.
  replace (2 + List.length t + List.length tail + 2)
    with (List.length ("["%char :: "["%char :: t ++ tail ++ ["]"%char; "]"%char]))
    by (cbn [List.length]; rewrite !length_app; cbn; lia).
  rewrite skipn_all. now rewrite !app_nil_r.
Qed.

Lemma tiddly_match (d t : chars) :
  Forall (fun x => np x = true) d -> Forall (fun x => np x = true) t ->
  t <> [] ->
  match_at tiddlyLink (L "[[" ++ d ++ L "|" ++ t ++ L "]]") 0 =
  Some (mkMatch 0 (2 + List.length d + 1 + List.length t + 2) [(2, t); (1, d)]).
Proof.
  intros Hd Ht Hn. unfold match_at, tiddlyLink.
  cbn [seq]. cbn [run lit].
  cbn [L list_ascii_of_string app step rest pos caps].
  rewrite !Ascii.eqb_refl. cbn [rest pos caps].
  fold np.
  rewrite star_lazy with (u := d) (w := "|"%char :: t ++ L "]]")
    (res := mkState [] (2 + List.length d + 1 + List.length t + 2) [(2, t); (1, d)]);
    [reflexivity | exact Hd | |].
  - unfold capture at 1; cbn [rest pos caps step].
    rewrite !Ascii.eqb_refl. cbn [rest pos caps].
    rewrite firstn_exact by lia.
    rewrite star_greedy with (u := t) (w := L "]]")
      (res := mkState [] (2 + List.length d + 1 + List.length t + 2) [(2, t); (1, d)]);
      [reflexivity | exact Ht | |].
    + unfold capture; cbn [rest pos caps].
      replace (Nat.eqb (S (2 + List.length d) + List.length t) (S (2 + List.length d)))
        with false
        by (symmetry; apply Nat.eqb_neq; destruct t; [contradiction|cbn; lia]).
      unfold setter. cbn [seq run lit step rest pos caps L list_ascii_of_string].
      rewrite !Ascii.eqb_refl.
      change (Ascii.eqb "[" "]") with false. cbn [or_else].
      rewrite firstn_exact by lia.
      do 2 f_equal. lia.
    + intros w1 w2 E N F. destruct w1 as [|c w1]; [contradiction|].
      cbn in E. injection E as <- _. inversion F; subst. discriminate.
  - intros u1 u2 E N. unfold capture; cbn [rest pos caps].
    destruct u2 as [|c u2]; [contradiction|].
    subst d. apply Forall_app in Hd as [_ Hd]. inversion Hd; subst.
    cbn [app step rest].
    replace (Ascii.eqb "|" c) with false; [reflexivity|].
    symmetry. unfold np, none_of in H1. cbn in H1.
    rewrite Ascii.eqb_sym. destruct (Ascii.eqb c "|"); [discriminate|reflexivity].
Qed.

Lemma occurs_cons_other (x : chars) (c : ascii) (b : chars) :
  ~ In c x -> x <> [] -> occurs x (c :: b) -> occurs x b.
Proof.
  intros Hc Hx O.
  destruct (@occurs_split x [] b c Hc O) as [O'|O']; [|exact O'].
  now destruct (not_occurs_nil Hx).
Qed.

Lemma occurs_snoc_other (x : chars) (c : ascii) (a : chars) :
  ~ In c x -> x <> [] -> occurs x (a ++ [c]) -> occurs x a.
Proof.
  intros Hc Hx O.
  destruct (@occurs_split x a [] c Hc O) as [O'|O']; [exact O'|].
  now destruct (not_occurs_nil Hx).
Qed.

(** A text that stays clear of the brackets occurs in a token only
    inside its parts. *)
Lemma occurs_in_token (x t : chars) :
  ~ In "["%char x -> ~ In "]"%char x -> x <> [] ->
  occurs x (L "[[" ++ t ++ L "]]") -> occurs x t.
Proof.
  intros Ho Hc Hx O.
  cbn [L list_ascii_of_string app] in O.
  do 2 apply occurs_cons_other in O; auto.
  change (t ++ ["]"%char; "]"%char]) with (t ++ ["]"%char] ++ ["]"%char]) in O.
  rewrite app_assoc in O.
  do 2 apply occurs_snoc_other in O; auto.
Qed.

Lemma occurs_in_setter_token (x t s : chars) :
  ~ In "["%char x -> ~ In "]"%char x -> x <> [] ->
  occurs x (L "[[" ++ t ++ L "][" ++ s ++ L "]]") -> occurs x t \/ occurs x s.
Proof.
  intros Ho Hc Hx O.
  replace (L "[[" ++ t ++ L "][" ++ s ++ L "]]")
    with (L "[[" ++ (t ++ L "][" ++ s) ++ L "]]") in O
    by (now rewrite <- !app_assoc).
  apply occurs_in_token in O; auto.
  apply occurs_split in O as [O|O]; [now left| |exact Hc].
  apply occurs_cons_other in O; auto.
Qed.

Lemma arrow_needs_arrow (w : chars) :
  matches arrowLink w -> occurs (L "->") w \/ occurs (L "<-") w.
Proof.
  intro M. unfold arrowLink in M. cbn [seq] in M.
  apply matches_cat in M as (w1 & w2 & -> & _ & M).
  apply matches_cat in M as (w3 & w4 & -> & M & _).
  apply matches_alt in M as [M|M]; [left|right];
    apply occurs_app_l, occurs_app_r;
    [apply (@matches_seq_occurs (L "->") (lit "->")
              [Group 1 (Star (none_of ["]"%char])); lit "->"])
    |apply (@matches_seq_occurs (L "<-") (lit "<-")
              [Group 2 (LazyStar (none_of ["]"%char])); lit "<-"])];
    try (cbn; tauto); try apply lit_occurs; exact M.
Qed.

Lemma tiddly_needs_pipe (w : chars) :
  matches tiddlyLink w -> occurs (L "|") w.
Proof.
  apply matches_seq_occurs with (r := lit "|");
    [cbn; tauto|apply lit_occurs].
Qed.

(** Without arrow and without pipe, the target of a token is its text
    before the setter. *)
Lemma resolve_plain_token (t tail : chars) :
  Forall (fun c => plain_char c = true) t -> closes tail ->
  ~ occurs (L "->") (L "[[" ++ t ++ tail ++ L "]]") ->
  ~ occurs (L "<-") (L "[[" ++ t ++ tail ++ L "]]") ->
  ~ occurs (L "|") (L "[[" ++ t ++ tail ++ L "]]") ->
  resolve (L "[[" ++ t ++ tail ++ L "]]") = t.
Proof.
  intros Ht Hc A1 A2 P. unfold resolve.
  rewrite replace_with_never
    by (apply never_without_either with (x := L "->") (y := L "<-");
        [exact arrow_needs_arrow | exact A1 | exact A2]).
  rewrite (@replace_template_never tiddlyLink)
    by (apply never_without with (x := L "|");
        [exact tiddly_needs_pipe | exact P]).
  now apply brackets_strip.
Qed.

Lemma plain_np (s : chars) :
  Forall (fun c => plain_char c = true) s -> ~ occurs (L "|") s ->
  Forall (fun x => np x = true) s.
Proof.
  induction s as [|c s IH]; intros H O; constructor.
  - inversion H; subst. apply plain_first in H2.
    unfold np, none_of. cbn.
    destruct (Ascii.eqb c "|") eqn:E.
    + apply Ascii.eqb_eq in E. subst. destruct O. exists [], s. reflexivity.
    + apply orb_false_iff in H2 as [_ ->]. reflexivity.
  - inversion H; subst. apply IH; auto.
    intro O'. apply O. now apply (@occurs_app_l _ [c]).
Qed.

Lemma expand_second (s : chars) (m : Match) :
  expand 2 s m (L "$2") = capture_text 2 m ++ [].
Proof. reflexivity. Qed.

Lemma brackets_plain (t : chars) :
  Forall (fun c => plain_char c = true) t ->
  replace_template brackets 0 [] t = t.
Proof.
  intro Ht. apply replace_template_never.
  intros pre suf i ->. apply never_first_char
    with (q := fun c => Ascii.eqb c "[" || Ascii.eqb c "]").
  - exact brackets_first.
  - apply Forall_app in Ht as [_ Ht].
    destruct suf as [|c suf]; [exact I|].
    apply plain_first. now inversion Ht.
Qed.

Lemma resolve_pipe (d t : chars) :
  Forall (fun c => plain_char c = true) d ->
  Forall (fun c => plain_char c = true) t ->
  t <> [] ->
  ~ occurs (L "|") d -> ~ occurs (L "|") t ->
  ~ occurs (L "->") d -> ~ occurs (L "->") t ->
  ~ occurs (L "<-") d -> ~ occurs (L "<-") t ->
  resolve (L "[[" ++ d ++ L "|" ++ t ++ L "]]") = t.
Proof.
  intros Hd Ht Hn Pd Pt A1d A1t A2d A2t. unfold resolve.
  assert (Sp : forall x, ~ In "["%char x -> ~ In "]"%char x ->
                 ~ In "|"%char x -> x <> [] ->
                 ~ occurs x d -> ~ occurs x t ->
                 ~ occurs x (L "[[" ++ d ++ L "|" ++ t ++ L "]]")).
  { intros x X1 X2 X3 X4 Od Ot O.
    replace (L "[[" ++ d ++ L "|" ++ t ++ L "]]")
      with (L "[[" ++ (d ++ L "|" ++ t) ++ L "]]") in O
      by (now rewrite <- !app_assoc).
    apply occurs_in_token in O; auto.
    apply occurs_split in O as [O|O]; auto. }
  rewrite replace_with_never.
  - unfold replace_template at 2.
    rewrite (@replace_with_whole tiddlyLink _ _
               (mkMatch 0 (2 + List.length d + 1 + List.length t + 2)
                        [(2, t); (1, d)])).
    + rewrite expand_second. cbn [capture_text group lookup m_caps Nat.eqb].
      rewrite app_nil_r. now apply brackets_plain.
    + discriminate.
    + apply tiddly_match; auto using plain_np.
    + cbn [m_end]. rewrite !length_app. cbn. lia.
    + reflexivity.
  - apply never_without_either with (x := L "->") (y := L "<-");
      [exact arrow_needs_arrow | |]; apply Sp; auto; cbn;
      intuition discriminate.
Qed.

(** A token ends at the first pair of closing brackets. *)
Lemma token_match_at (u post : chars) (i : nat) :
  Forall (fun c => dot c = true) u ->
  has_pair "]" "]" (u ++ ["]"%char]) = false ->
  match_at linkToken (L "[[" ++ u ++ L "]]" ++ post) i =
  Some (mkMatch i (i + (2 + List.length u + 2)) []).
Proof.
  intros Hu Hp. unfold match_at, linkToken.
  cbn [seq]. cbn [run lit].
  cbn [L list_ascii_of_string app step rest pos caps].
  rewrite !Ascii.eqb_refl. cbn [rest pos caps].
  rewrite star_lazy with (u := u) (w := L "]]" ++ post)
    (res := mkState post (i + (2 + List.length u + 2)) []);
    [reflexivity | exact Hu | |].
  - cbn. do 2 f_equal. lia.
  - intros u1 u2 E N. apply step_pair_fails. cbn [rest]. intros b E2.
    destruct u2 as [|c u2]; [contradiction|]. cbn in E2. injection E2 as -> E2.
    subst u. destruct u2 as [|c' u2]; cbn in E2.
    + apply (@has_pair_sound _ _ _ Hp u1 []).
      now rewrite <- app_assoc.
    + injection E2 as -> _.
      apply (@has_pair_sound _ _ _ Hp u1 (u2 ++ ["]"%char])).
      now rewrite <- app_assoc.
Qed.

Lemma has_pair_complete (x y : ascii) (s : chars) :
  has_pair x y s = true -> occurs [x; y] s.
Proof.
  induction s as [|a s IH]; [discriminate|].
  cbn [has_pair]. destruct s as [|b s]; [discriminate|].
  intro E. apply orb_true_iff in E as [E|E].
  - apply andb_true_iff in E as [Ea Eb].
    apply Ascii.eqb_eq in Ea, Eb. subst. exists [], s. reflexivity.
  - apply (@occurs_app_l _ [a]). now apply IH.
Qed.

Lemma token_first (w : chars) :
  matches linkToken w ->
  exists c w', w = c :: w' /\ Ascii.eqb c "[" = true.
Proof.
  intro M. apply token_shape in M as (x & -> & _). cbn. eauto.
Qed.

Lemma not_mentioned_char (c : ascii) (s : chars) :
  ~ occurs [c] s -> Forall (fun x => Ascii.eqb x c = false) s.
Proof.
  induction s as [|x s IH]; intro O; constructor.
  - destruct (Ascii.eqb x c) eqn:E; [|reflexivity].
    apply Ascii.eqb_eq in E. subst. destruct O. exists [], s. reflexivity.
  - apply IH. intro O'. apply O. now apply (@occurs_app_l _ [x]).
Qed.

Lemma slice_middle (pre w post : chars) :
  slice (pre ++ w ++ post) (List.length pre) (List.length pre + List.length w)
  = w.
Proof.
  unfold slice. rewrite skipn_exact by reflexivity.
  apply firstn_exact. lia.
Qed.

(** The one token of a text with no opening bracket around it. *)
Lemma match_global_single (pre u post : chars) :
  ~ occurs ["["%char] pre -> ~ occurs (L "[[") post ->
  Forall (fun c => dot c = true) u ->
  has_pair "]" "]" (u ++ ["]"%char]) = false ->
  match_global linkToken (pre ++ (L "[[" ++ u ++ L "]]") ++ post) =
  [L "[[" ++ u ++ L "]]"].
Proof.
  intros Hpre Hpost Hu Hp. unfold match_global.
  rewrite (@exec_all_one linkToken pre (L "[[" ++ u ++ L "]]") post
             (mkMatch (List.length pre)
                      (List.length pre + (2 + List.length u + 2)) [])).
  - cbn [map]. unfold matched. cbn [m_start m_end].
    replace (2 + List.length u + 2)
      with (List.length (L "[[" ++ u ++ L "]]"))
      by (rewrite !length_app; cbn; lia).
    now rewrite slice_middle.
  - intros p1 p2 E N. apply never_first_char
      with (q := fun c => Ascii.eqb c "[").
    + exact token_first.
    + destruct p2 as [|c p2]; [contradiction|]. cbn [app].
      apply not_mentioned_char in Hpre. subst pre.
      apply Forall_app in Hpre as [_ Hpre]. now inversion Hpre.
  - discriminate.
  - rewrite <- !app_assoc. now apply token_match_at.
  - cbn [m_end]. rewrite !length_app. cbn. lia.
  - apply never_without with (x := L "[["); [|exact Hpost].
    intro w. apply matches_seq_occurs with (r := lit "[[");
      [cbn; tauto|apply lit_occurs].
Qed.

Lemma links_of_single (b : bool) (pre u post : chars) :
  ~ occurs ["["%char] pre -> ~ occurs (L "[[") post ->
  Forall (fun c => dot c = true) u ->
  has_pair "]" "]" (u ++ ["]"%char]) = false ->
  links b (passage_with (S_ (pre ++ (L "[[" ++ u ++ L "]]") ++ post))) =
  filter (fun x => if b then is_internal x else true)
    (filter reportable [target_of (L "[[" ++ u ++ L "]]")]).
Proof.
  intros Hpre Hpost Hu Hp.
  rewrite links_filtered, links_first_seen. unfold passage_with; cbn [text].
  rewrite L_S, match_global_single by assumption.
  cbn [map filter]. destruct (reportable _); reflexivity.
Qed.

End FormFacts.

Import FormFacts.

Lemma text_around (pre u post : string) :
  L (pre ++ "[[" ++ u ++ "]]" ++ post) =
  (L pre ++ (L "[[" ++ L u ++ L "]]") ++ L post)%list.
Proof. now rewrite !L_app, <- !app_assoc. Qed.

(** X15.  The text around a link plays no part: where no opening
    bracket stands before the token and no pair of them after it,
    [links] gives what it gives for the token alone. *)
Theorem links_ignores_text_around (internalOnly : bool)
    (pre u post : string) :
  mentions "[" pre = false -> mentions "[[" post = false ->
  forallb dot (L u) = true -> mentions "]]" (u ++ "]") = false ->
  links internalOnly (passage_with (pre ++ "[[" ++ u ++ "]]" ++ post)) =
  links internalOnly (passage_with ("[[" ++ u ++ "]]")).
Proof.
  intros Hpre Hpost Hu Hp.
  apply not_mentioned in Hpre, Hpost, Hp.
  rewrite forallb_forall, <- Forall_forall in Hu.
  assert (Hq : has_pair "]" "]" (L u ++ ["]"%char])%list = false).
  { destruct (has_pair "]" "]" (L u ++ ["]"%char])%list) eqn:E; [|reflexivity].
    exfalso. apply Hp. rewrite L_app. now apply has_pair_complete. }
  rewrite <- (S_L (pre ++ "[[" ++ u ++ "]]" ++ post)), text_around.
  rewrite links_of_single by assumption.
  replace ("[[" ++ u ++ "]]")
    with (S_ ([] ++ (L "[[" ++ L u ++ L "]]") ++ [])%list)
    by (cbn [app]; rewrite app_nil_r, <- !L_app; apply S_L).
  rewrite links_of_single; auto.
  - intros (a & b & E). destruct a; discriminate.
  - intros (a & b & E). destruct a; discriminate.
Qed.

Lemma links_ignores_text_around_witness :
  links false (passage_with ("Go north to the " ++ "[[" ++ "Cellar" ++ "]]"
                             ++ " or stay.")) =
  links false (passage_with ("[[" ++ "Cellar" ++ "]]")).
Proof.
  apply links_ignores_text_around; reflexivity.
Defined.
Lemma free_text_spec (s : string) :
  free_text s = true ->
  Forall (fun c => plain_char c = true) (L s) /\
  ~ occurs (L "->") (L s) /\ ~ occurs (L "<-") (L s) /\ ~ occurs (L "|") (L s).
Proof.
  unfold free_text. rewrite !andb_true_iff, !negb_true_iff.
  intros (((P & A1) & A2) & B).
  auto using plain_chars, not_mentioned.
Qed.

Lemma has_pair_past (x y : ascii) (u w : chars) :
  Forall (fun c => Ascii.eqb c x = false) u ->
  has_pair x y (u ++ w)%list = has_pair x y w.
Proof.
  induction 1 as [|c u Hc Hu IH]; [reflexivity|].
  cbn [app has_pair]. rewrite Hc, IH. cbn [andb orb].
  destruct (u ++ w)%list eqn:E; [|reflexivity].
  apply app_eq_nil in E as [_ ->]. reflexivity.
Qed.

Lemma has_pair_step (x y a b : ascii) (s : chars) :
  has_pair x y (a :: b :: s) =
  (Ascii.eqb a x && Ascii.eqb b y) || has_pair x y (b :: s).
Proof. reflexivity. Qed.

Lemma plain_not_close (u : chars) :
  Forall (fun c => plain_char c = true) u ->
  Forall (fun c => Ascii.eqb c "]" = false) u.
Proof.
  apply Forall_impl. intros c H. apply plain_first in H.
  now apply orb_false_iff in H.
Qed.

Lemma reportable_target (target : string) :
  target <> "" -> has_key object_prototype_keys target = false ->
  reportable target = true.
Proof.
  intros N K. unfold reportable. rewrite K.
  apply String.eqb_neq in N. now rewrite N.
Qed.

(** The links of a text that is one token with the target [target]. *)
Lemma links_token (u : chars) (target : string) :
  Forall (fun c => dot c = true) u ->
  has_pair "]" "]" (u ++ ["]"%char])%list = false ->
  resolve (L "[[" ++ u ++ L "]]")%list = L target ->
  target <> "" -> has_key object_prototype_keys target = false ->
  links false (passage_with (S_ (L "[[" ++ u ++ L "]]")%list)) = [target].
Proof.
  intros Hu Hp Hr N K.
  replace (L "[[" ++ u ++ L "]]")%list
    with ([] ++ (L "[[" ++ u ++ L "]]") ++ [])%list at 1
    by (cbn [app]; now rewrite app_nil_r).
  rewrite links_of_single; auto.
  - unfold target_of. rewrite Hr, S_L. cbn [filter].
    now rewrite reportable_target.
  - intros (a & b & E). destruct a; discriminate.
  - intros (a & b & E). destruct a; discriminate.
Qed.

(** X16.  A link with nothing but its target between the brackets
    names that target. *)
Theorem links_bare_form (target : string) :
  free_text target = true ->
  target <> "" -> has_key object_prototype_keys target = false ->
  links false (passage_with ("[[" ++ target ++ "]]")) = [target].
Proof.
  intros F N K. apply free_text_spec in F as (P & A1 & A2 & B).
  rewrite token_text. apply links_token; auto.
  - now apply plain_dot.
  - rewrite has_pair_past by now apply plain_not_close. reflexivity.
  - replace (L "[[" ++ L target ++ L "]]")%list
      with (L "[[" ++ L target ++ [] ++ L "]]")%list by reflexivity.
    apply resolve_plain_token; auto using closes_bare; cbn [app];
      intro O; apply occurs_in_token in O; auto;
      cbn; intuition discriminate.
Qed.

Lemma links_bare_form_witness :
  links false (passage_with ("[[" ++ "Cellar door" ++ "]]")) = ["Cellar door"].
Proof.
  apply links_bare_form; [reflexivity | discriminate | reflexivity].
Defined.

(** X17.  In the pipe form the target is the text after the pipe. *)
Theorem links_pipe_form (display target : string) :
  free_text display = true -> free_text target = true ->
  target <> "" -> has_key object_prototype_keys target = false ->
  links false (passage_with ("[[" ++ (display ++ "|" ++ target) ++ "]]"))
  = [target].
Proof.
  intros Fd Ft N K.
  apply free_text_spec in Fd as (Pd & A1d & A2d & Bd).
  apply free_text_spec in Ft as (Pt & A1t & A2t & Bt).
  rewrite token_text, !L_app. apply links_token; auto.
  - apply Forall_app. split; [now apply plain_dot|].
    constructor; [reflexivity|now apply plain_dot].
  - rewrite <- !app_assoc.
    rewrite has_pair_past by now apply plain_not_close.
    change (L "|" ++ L target ++ ["]"%char])%list
      with (["|"%char] ++ L target ++ ["]"%char])%list.
    rewrite has_pair_past by (repeat constructor).
    rewrite has_pair_past by now apply plain_not_close. reflexivity.
  - rewrite <- !app_assoc. apply resolve_pipe; auto.
    intro E. apply N. rewrite <- (S_L target), E. reflexivity.
Qed.

Lemma links_pipe_form_witness :
  links false (passage_with ("[[" ++ ("the cellar door" ++ "|" ++ "Cellar")
                             ++ "]]")) = ["Cellar"].
Proof.
  apply links_pipe_form; [reflexivity | reflexivity | discriminate | reflexivity].
Defined.

(** X18.  A setter after the target is no part of it. *)
Theorem links_setter_form (target code : string) :
  free_text target = true -> free_text code = true ->
  target <> "" -> has_key object_prototype_keys target = false ->
  links false (passage_with ("[[" ++ (target ++ "][" ++ code) ++ "]]"))
  = [target].
Proof.
  intros Ft Fc N K.
  apply free_text_spec in Ft as (Pt & A1t & A2t & Bt).
  apply free_text_spec in Fc as (Pc & A1c & A2c & Bc).
  rewrite token_text, !L_app. apply links_token; auto.
  - apply Forall_app. split; [now apply plain_dot|].
    apply Forall_app. split; [repeat constructor|now apply plain_dot].
  - rewrite <- !app_assoc.
    rewrite has_pair_past by now apply plain_not_close.
    change (L "][" ++ L code ++ ["]"%char])%list
      with ("]"%char :: "["%char :: L code ++ ["]"%char])%list.
    rewrite has_pair_step.
    change (Ascii.eqb "[" "]") with false. rewrite andb_false_r. cbn [orb].
    change ("["%char :: L code ++ ["]"%char])%list
      with (["["%char] ++ L code ++ ["]"%char])%list.
    rewrite has_pair_past by (repeat constructor).
    rewrite has_pair_past by now apply plain_not_close.
    reflexivity.
  - rewrite <- !app_assoc.
    replace (L "[[" ++ L target ++ L "][" ++ L code ++ L "]]")%list
      with (L "[[" ++ L target ++ (L "][" ++ L code) ++ L "]]")%list
      by (now rewrite <- !app_assoc).
    apply resolve_plain_token; auto using closes_setter;
      rewrite <- !app_assoc;
      intro O; apply occurs_in_setter_token in O;
      try (cbn; intuition discriminate); tauto.
Qed.

Lemma links_setter_form_witness :
  links false (passage_with ("[[" ++ ("Cellar" ++ "][" ++ "$key to true")
                             ++ "]]")) = ["Cellar"].
Proof.
  apply links_setter_form; [reflexivity | reflexivity | discriminate | reflexivity].
Defined.
(** *** Renaming and reading back *)






(** ** Searching and replacing *)

Module SearchFacts.
Import Search.
Local Open Scope list_scope.

Lemma first_match_none (r : regex) (inp : chars) :
  forall i, first_match r inp i = None <-> scan r inp i 0 = [].
Proof.
  induction inp as [|c inp IH]; intro i; cbn [first_match scan];
    destruct (match_at r _ i); try (split; [discriminate|discriminate]);
    try tauto.
  apply IH.
Qed.

Lemma first_match_at (r : regex) (inp : chars) (m : Match) :
  forall i, first_match r inp i = Some m ->
  exists pre suf, inp = pre ++ suf /\
                  match_at r suf (i + List.length pre) = Some m.
Proof.
  induction inp as [|c inp IH]; intro i; cbn [first_match];
    destruct (match_at r _ i) eqn:E; intro H; try discriminate.
  - exists [], []. cbn. rewrite Nat.add_0_r. now rewrite <- H.
  - exists [], (c :: inp). cbn. rewrite Nat.add_0_r. now rewrite <- H.
  - apply IH in H as (pre & suf & -> & H).
    exists (c :: pre), suf. split; [reflexivity|].
    cbn [List.length]. now rewrite Nat.add_succ_r.
Qed.

Lemma first_match_apart (r : regex) (inp : chars) (m : Match) (i : nat) :
  first_match r inp i = Some m -> apart i [m].
Proof.
  intro H. apply first_match_at in H as (pre & suf & _ & H).
  apply match_at_sound in H as (w & post & _ & _ & S0 & E0).
  cbn. lia.
Qed.

Lemma test_plain (r : regex) (s : chars) :
  test (Plain r) s = (negb (Nat.eqb (List.length (match_global r s)) 0), Plain r).
Proof.
  unfold test, exec, match_global, exec_all. rewrite length_map.
  destruct (first_match r s 0) eqn:E.
  - destruct (scan r s 0 0) eqn:E2; [|reflexivity].
    apply first_match_none in E2. congruence.
  - apply first_match_none in E. now rewrite E.
Qed.

Lemma test_global_zero (r : regex) (s : chars) :
  fst (test (Global r 0) s) = negb (Nat.eqb (List.length (match_global r s)) 0) /\
  (fst (test (Global r 0) s) = false -> snd (test (Global r 0) s) = Global r 0).
Proof.
  unfold test, exec, match_global, exec_all. rewrite length_map.
  cbn [Nat.ltb Nat.leb skipn].
  destruct (first_match r s 0) eqn:E; cbn [fst snd].
  - destruct (scan r s 0 0) eqn:E2; [|split; [reflexivity|discriminate]].
    apply first_match_none in E2. congruence.
  - apply first_match_none in E. rewrite E. split; reflexivity.
Qed.

Lemma test_false_rewound (search : RegExpObject) (s : chars) :
  fst (test search s) = false -> snd (test search s) = rewound search.
Proof.
  destruct search as [r|r i]; unfold test, exec.
  - destruct (first_match r s 0); [discriminate|reflexivity].
  - destruct (Nat.ltb (List.length s) i); [reflexivity|].
    destruct (first_match r (skipn i s) i); [discriminate|reflexivity].
Qed.

Lemma splice_ext (f g : Match -> chars) (s : chars) (ms : list Match) :
  (forall m, f m = g m) ->
  forall from, splice f s from ms = splice g s from ms.
Proof.
  intros H. induction ms as [|m ms IH]; intro from; cbn [splice];
    [reflexivity|]. now rewrite H, IH.
Qed.

Lemma expand_match_itself (g : nat) (s : chars) (m : Match) :
  expand g s m (L "$&") = matched s m.
Proof. cbn. apply app_nil_r. Qed.

Lemma string_replace_itself (search : RegExpObject) (s : chars) :
  string_replace search (L "$&") s = (s, rewound search).
Proof.
  destruct search as [r|r i]; unfold string_replace; cbn [source rewound];
    f_equal.
  - rewrite splice_ext with (g := matched s)
      by (intro; apply expand_match_itself).
    destruct (first_match r s 0) eqn:E.
    + now rewrite splice_matched by (eapply first_match_apart; eauto).
    + reflexivity.
  - rewrite splice_ext with (g := matched s)
      by (intro; apply expand_match_itself).
    apply (replace_with_matched r s).
Qed.

Lemma string_replace_nothing (search : RegExpObject) (tpl s : chars) :
  match_global (source search) s = [] ->
  string_replace search tpl s = (s, rewound search).
Proof.
  unfold match_global, exec_all. intro H. apply map_eq_nil in H.
  destruct search as [r|r i]; unfold string_replace; cbn [source rewound] in *;
    f_equal.
  - apply first_match_none in H. now rewrite H.
  - unfold exec_all. now rewrite H.
Qed.

Lemma rewound_twice (search : RegExpObject) :
  rewound (rewound search) = rewound search.
Proof. now destruct search. Qed.

Lemma source_rewound (search : RegExpObject) :
  source (rewound search) = source search.
Proof. now destruct search. Qed.

End SearchFacts.

Import SearchFacts.

(** X21.  For a search object that is not global, or whose [lastIndex]
    is 0, [matches] answers true exactly when [numMatches], the name
    included, counts at least one match. *)
Theorem matches_iff_numMatches (search : Search.RegExpObject)
    (this : Passage) :
  rewound search = search ->
  (fst (Search.matches search this) = true <->
   (0 < Search.numMatches search true this)%nat).
Proof.
  intro F. unfold Search.matches, Search.numMatches.
  destruct search as [r|r i]; cbn [Search.source].
  - rewrite !test_plain. cbn [fst].
    destruct (List.length (match_global r (L (name this)))),
             (List.length (match_global r (L (text this)))); cbn; 
      split; intro; try lia; try reflexivity; discriminate.
  - injection F as <-.
    destruct (test_global_zero r (L (name this))) as [Tn Rn].
    destruct (test_global_zero r (L (text this))) as [Tt _].
    destruct (Search.test (Search.Global r 0) (L (name this))) as [b s'] eqn:E.
    cbn [fst snd] in Tn, Rn. destruct b.
    + cbn [fst]. symmetry in Tn. apply negb_true_iff, Nat.eqb_neq in Tn.
      split; [lia|reflexivity].
    + rewrite (Rn eq_refl), Tt.
      symmetry in Tn. apply negb_false_iff, Nat.eqb_eq in Tn. rewrite Tn.
      destruct (List.length (match_global r (L (text this)))); cbn;
        split; intro; try lia; try reflexivity; discriminate.
Qed.

Lemma matches_iff_numMatches_witness :
  fst (Search.matches (Search.Global (lit "ell") 0)
         (passage_with "Hello, cellar")) = true <->
  (0 < Search.numMatches (Search.Global (lit "ell") 0) true
         (passage_with "Hello, cellar"))%nat.
Proof. apply matches_iff_numMatches. reflexivity. Defined.

(** X22.  Whatever [lastIndex] a global search object comes with,
    [matches] searches the text from its start: a match in the text
    makes it answer true.  When it answers false the text holds no
    match and the search object is left with [lastIndex] 0. *)
Theorem matches_searches_whole_text (search : Search.RegExpObject)
    (this : Passage) :
  ((0 < Search.numMatches search false this)%nat ->
   fst (Search.matches search this) = true) /\
  (fst (Search.matches search this) = false ->
   Search.numMatches search false this = 0%nat /\
   snd (Search.matches search this) = rewound search).
Proof.
  assert (K : fst (Search.matches search this) = false ->
              Search.numMatches search false this = 0%nat /\
              snd (Search.matches search this) = rewound search).
  { unfold Search.matches, Search.numMatches. cbn [List.length Nat.add].
    pose proof (@test_false_rewound search (L (name this))) as Rn.
    destruct (Search.test search (L (name this))) as [b s'] eqn:E.
    cbn [fst snd] in Rn. destruct b; [discriminate|].
    rewrite (Rn eq_refl). intro Ft.
    pose proof (@test_false_rewound _ _ Ft) as Rt.
    rewrite Rt, rewound_twice. split; [|reflexivity].
    destruct search as [r|r i]; cbn [rewound Search.source] in *.
    - rewrite test_plain in Ft. cbn [fst] in Ft.
      now apply negb_false_iff, Nat.eqb_eq in Ft.
    - destruct (test_global_zero r (L (text this))) as [Tt _].
      rewrite Ft in Tt. symmetry in Tt.
      now apply negb_false_iff, Nat.eqb_eq in Tt. }
  split; [|exact K].
  intro H. destruct (fst (Search.matches search this)) eqn:E; [reflexivity|].
  destruct (K eq_refl) as [Z _]. lia.
Qed.

(** X23.  [replace] always calls [save], also when there is nothing to
    replace: where [numMatches] counts no match, in the text and, with
    [inName], in the name, the attributes saved are the ones the
    passage has. *)
Theorem replace_without_match_saves_unchanged (search : Search.RegExpObject)
    (replacement : string) (inName : bool) (this : Passage) :
  Search.numMatches search inName this = 0%nat ->
  Search.replace search replacement inName this =
  (Search.mkSaved (if inName then Some (name this) else undefined)
     (text this), rewound search).
Proof.
  unfold Search.numMatches, Search.replace. intro H.
  apply Nat.eq_add_0 in H as [Hn Ht].
  apply length_zero_iff_nil in Ht.
  destruct inName.
  - apply length_zero_iff_nil in Hn.
    rewrite string_replace_nothing by exact Hn.
    rewrite string_replace_nothing by (now rewrite source_rewound).
    now rewrite !S_L, rewound_twice.
  - rewrite string_replace_nothing by exact Ht. now rewrite S_L.
Qed.

Lemma replace_without_match_saves_unchanged_witness :
  Search.replace (Search.Plain (lit "attic")) "loft" true
    (passage_with "Hello, cellar") =
  (Search.mkSaved (Some "Untitled Passage") "Hello, cellar",
   Search.Plain (lit "attic")).
Proof.
  apply (@replace_without_match_saves_unchanged
           (Search.Plain (lit "attic")) "loft" true
           (passage_with "Hello, cellar")).
  reflexivity.
Defined.

(** X24.  Replacing every match by itself, the template [$&], saves the
    name and the text as they are, whatever the pattern matches. *)
Theorem replace_by_match_itself (search : Search.RegExpObject)
    (inName : bool) (this : Passage) :
  Search.replace search "$&" inName this =
  (Search.mkSaved (if inName then Some (name this) else undefined)
     (text this), rewound search).
Proof.
  unfold Search.replace. destruct inName.
  - rewrite !string_replace_itself. now rewrite !S_L, rewound_twice.
  - rewrite string_replace_itself. now rewrite S_L.
Qed.
(** ** The sync handler *)

Lemma on_sync_settled (this : Passage) (stories : list StoryEntry) :
  id this <> Some (cid this) ->
  Forall (fun s => starts_at (cid this) s = false)
    (on_sync (mkEventOptions false) this stories).
Proof.
  intro H. unfold on_sync. cbn [noParentUpdate].
  apply Forall_forall. intros s I. apply in_map_iff in I as (s0 & E & _).
  destruct (starts_at (cid this) s0) eqn:E0; subst s; [|exact E0].
  unfold starts_at. cbn [startPassage].
  destruct (id this) as [i|]; [|reflexivity].
  apply String.eqb_neq. congruence.
Qed.

(** X25.  Once a passage has an id of its own, the sync handler leaves
    no story with the passage's cid as its start passage: the stories
    that had it have the id instead, every other story is as it was,
    and a second sync changes nothing.  With [noParentUpdate] the
    handler does nothing. *)
Theorem sync_replaces_cid_by_id (options : EventOptions) (this : Passage)
    (stories : list StoryEntry) :
  id this <> Some (cid this) ->
  let after := on_sync options this stories in
  (noParentUpdate options = true -> after = stories) /\
  (noParentUpdate options = false ->
   Forall (fun s => starts_at (cid this) s = false) after /\
   (forall s, In s stories ->
      if starts_at (cid this) s
      then In (mkStoryEntry (entry s) (id this)) after
      else In s after)) /\
  map entry after = map entry stories /\
  on_sync options this after = after.
Proof.
  intros H after. subst after. destruct options as [[|]].
  - unfold on_sync. cbn [noParentUpdate]. repeat split; discriminate.
  - split; [discriminate|]. split; [|split].
    + intros _. split; [now apply on_sync_settled|].
      intros s I. unfold on_sync. cbn [noParentUpdate].
      destruct (starts_at (cid this) s) eqn:E;
        apply in_map_iff; exists s; rewrite E; auto.
    + unfold on_sync. cbn [noParentUpdate]. rewrite map_map.
      apply map_ext. intro s. now destruct (starts_at (cid this) s).
    + pose proof (@on_sync_settled this stories H) as F.
      set (after := on_sync (mkEventOptions false) this stories) in *.
      unfold on_sync at 1. cbn [noParentUpdate].
      rewrite <- (map_id after) at 2. apply map_ext_in.
      intros s I. rewrite Forall_forall in F. now rewrite (F s I).
Qed.

Lemma sync_replaces_cid_by_id_witness :
  on_sync (mkEventOptions false)
    (mkPassage (Some "p7") "c7" "s1" "Start" "" [] (Num 0) (Num 0))
    [mkStoryEntry sample_story (Some "c7");
     mkStoryEntry sample_story (Some "p2")] =
  [mkStoryEntry sample_story (Some "p7");
   mkStoryEntry sample_story (Some "p2")].
Proof.
  destruct (@sync_replaces_cid_by_id (mkEventOptions false)
              (mkPassage (Some "p7") "c7" "s1" "Start" "" [] (Num 0) (Num 0))
              [mkStoryEntry sample_story (Some "c7");
               mkStoryEntry sample_story (Some "p2")])
    as (_ & _ & _ & E); [discriminate|].
  rewrite <- E. reflexivity.
Defined.
(** *** Renaming in the other forms of a link *)

Module CompoundFacts.
Local Open Scope list_scope.







Lemma simple_needs (old : string) (w : chars) :
  matches (simpleLinkRegexp (lit old)) w ->
  exists w', w = L "[[" ++ L old ++ "]"%char :: w'.
Proof.
  unfold simpleLinkRegexp; cbn [seq]. intro M.
  apply matches_cat in M as (w1 & w2 & -> & M1 & M).
  apply matches_cat in M as (w3 & w4 & -> & M3 & M).
  apply matches_cat in M as (w5 & w6 & -> & M5 & M).
  apply matches_cat in M as (w7 & w8 & -> & M7 & M8).
  apply matches_lit in M1, M3, M7. apply matches_empty in M8. subst.
  apply matches_opt in M5 as [->|M5].
  - cbn. eauto.
  - apply matches_group in M5. cbn [seq] in M5.
    apply matches_cat in M5 as (v1 & v2 & -> & N1 & _).
    apply matches_lit in N1. subst. cbn. eauto.
Qed.

Lemma open_unique (pre body p r : chars) :
  ~ In "["%char pre -> ~ In "["%char body ->
  pre ++ L "[[" ++ body = p ++ L "[[" ++ r -> p = pre /\ r = body.
Proof.
  intros Hpre Hbody. revert p.
  induction pre as [|c pre IH]; intros p E.
  - destruct p as [|c p]; cbn in E.
    + injection E as E. auto.
    + exfalso. injection E as <- E. destruct p as [|c' p]; cbn in E.
      * injection E as E. apply Hbody. rewrite E. now left.
      * injection E as _ E. apply Hbody. rewrite E.
        apply in_or_app. right. now left.
  - destruct p as [|c' p]; cbn in E.
    + injection E as -> _. exfalso. apply Hpre. now left.
    + injection E as <- E. destruct (IH (fun H => Hpre (or_intror H)) p E)
        as [-> ->]. auto.
Qed.



Lemma quiet_not_in (c : ascii) (s : chars) :
  quiet_char c = false -> Forall (fun x => quiet_char x = true) s -> ~ In c s.
Proof.
  intros Hc Hs I. rewrite Forall_forall in Hs. apply Hs in I. congruence.
Qed.

Lemma plain_not_in (c : ascii) (s : chars) :
  plain_char c = false -> Forall (fun x => plain_char x = true) s -> ~ In c s.
Proof.
  intros Hc Hs I. rewrite Forall_forall in Hs. apply Hs in I. congruence.
Qed.

Lemma not_in_app (c : ascii) (a b : chars) :
  ~ In c a -> ~ In c b -> ~ In c (a ++ b).
Proof. intros Ha Hb I. apply in_app_or in I as [I|I]; auto. Qed.







End CompoundFacts.
Import CompoundFacts.

Lemma replaceLink_result (oldLink newLink t : string) (p : Passage) :
  plain_name oldLink = true ->
  rewritten (lit oldLink) newLink (text p) = t ->
  replaceLink oldLink newLink p =
  Some (if String.eqb t (text p) then (p, [])
        else (with_text t p, [SaveText (cid p) t])).
Proof.
  intros Hn <-. unfold replaceLink.
  rewrite name_pattern_plain by exact Hn.
  destruct (String.eqb _ _); reflexivity.
Qed.



Lemma simple_never_body (old : string) (pre body : chars) :
  ~ In "["%char pre -> ~ In "["%char body ->
  (forall w', body <> (L old ++ "]"%char :: w')%list) ->
  never (simpleLinkRegexp (lit old)) (pre ++ L "[[" ++ body)%list.
Proof.
  intros Hpre Hbody Hb p suf i E.
  destruct (match_at _ suf i) as [m|] eqn:M; [|reflexivity].
  exfalso. apply match_at_sound in M as (w & post' & M & -> & _).
  apply simple_needs in M as (w' & ->).
  rewrite <- !app_assoc in E.
  apply open_unique in E as [_ E]; auto.
  symmetry in E. rewrite <- app_comm_cons in E.
  now apply Hb in E.
Qed.

Lemma first_close_unique (a b x y : chars) :
  ~ In "]"%char a -> ~ In "]"%char b ->
  (a ++ "]"%char :: x = b ++ "]"%char :: y)%list -> a = b.
Proof.
  revert b. induction a as [|c a IH]; intros [|c' b] Ha Hb E; cbn in E.
  - reflexivity.
  - injection E as <- _. exfalso. apply Hb. now left.
  - injection E as -> _. exfalso. apply Ha. now left.
  - injection E as <- E. f_equal.
    apply IH; auto; intro I; [apply Ha|apply Hb]; now right.
Qed.

Lemma rewritten_other (oldLink newLink other pre post : string) :
  plain_name oldLink = true -> other <> oldLink ->
  plain other = true -> quiet other = true ->
  quiet pre = true -> quiet post = true ->
  rewritten (lit oldLink) newLink (pre ++ "[[" ++ other ++ "]]" ++ post) =
  pre ++ "[[" ++ other ++ "]]" ++ post.
Proof.
  intros Ho Hne Po Qo Qpre Qpost.
  apply quiet_chars in Qo, Qpre, Qpost. apply plain_chars in Po.
  assert (Oo : ~ In "["%char (L oldLink)) by (now apply plain_name_chars).
  assert (Oc : ~ In "]"%char (L oldLink)) by (now apply plain_name_chars).
  assert (W : forall l,
            incl l ["["%char; "|"%char; "<"%char; ">"%char; "$"%char] ->
            ~ In "["%char l -> ~ In "]"%char l ->
            without l (L pre ++ L "[[" ++ L other ++ L "]]" ++ L post)%list).
  { intros l Hl Hopen Hclose.
    assert (B : forall x, ~ In x l -> existsb (Ascii.eqb x) l = false).
    { intros x Hx. destruct (existsb (Ascii.eqb x) l) eqn:E; [|reflexivity].
      apply existsb_exists in E as (y & Hy & E).
      apply Ascii.eqb_eq in E. now subst. }
    repeat apply without_app; auto using quiet_without;
      repeat constructor; auto. }
  unfold rewritten.
  replace (L (pre ++ "[[" ++ other ++ "]]" ++ post))
    with (L pre ++ L "[[" ++ L other ++ L "]]" ++ L post)%list
    by (now rewrite !L_app).
  rewrite (@replace_template_never (simpleLinkRegexp _)).
  - rewrite (@replace_template_never (compoundLinkRegexp _)).
    + rewrite (@replace_template_never (reverseLinkRegexp _)).
      * now rewrite <- !L_app, S_L.
      * apply reverse_never, W; cbn; [|intuition discriminate..].
        intros x [<-|[]]. cbn. tauto.
    + apply compound_never, W; cbn; [|intuition discriminate..].
      intros x [<-|[<-|[]]]; cbn; tauto.
  - apply simple_never_body.
    + now apply quiet_not_in.
    + repeat apply not_in_app;
        first [ now apply quiet_not_in | cbn; intuition discriminate ].
    + intros w' E. apply Hne.
      change (L other ++ L "]]" ++ L post)%list
        with (L other ++ "]"%char :: ("]"%char :: L post))%list in E.
      apply first_close_unique in E; auto.
      * now rewrite <- (S_L other), E, S_L.
      * now apply plain_not_in.
Qed.

(** X27.  [replaceLink] renames only links to the old name itself: a
    bare link to any other name, one that begins or ends with the old
    name among them, is left as it is and nothing is saved. *)
Theorem replaceLink_leaves_other_links (oldLink newLink other pre post : string)
    (p : Passage) :
  plain_name oldLink = true -> other <> oldLink ->
  plain other = true -> quiet other = true ->
  quiet pre = true -> quiet post = true ->
  text p = pre ++ "[[" ++ other ++ "]]" ++ post ->
  replaceLink oldLink newLink p = Some (p, []).
Proof.
  intros Ho Hne Po Qo Qpre Qpost Et.
  rewrite (@replaceLink_result oldLink newLink (text p) p Ho).
  - now rewrite String.eqb_refl.
  - rewrite Et. now apply rewritten_other.
Qed.

Lemma replaceLink_leaves_other_links_witness :
  replaceLink "Cell" "Room" (passage_with "go to the [[Cellar]] now") =
  Some (passage_with "go to the [[Cellar]] now", []).
Proof.
  apply (@replaceLink_leaves_other_links "Cell" "Room" "Cellar"
           "go to the " " now");
    [reflexivity | discriminate | reflexivity ..].
Defined.
(** ** Publishing *)

Lemma join_cons (sep x : string) (a : list string) :
  a <> [] -> join sep (x :: a) = x ++ sep ++ join sep a.
Proof. destruct a; [contradiction|reflexivity]. Qed.

Lemma string_app_assoc (a b c : string) : (a ++ b) ++ c = a ++ b ++ c.
Proof. induction a as [|x a IH]; cbn; [reflexivity|now rewrite IH]. Qed.

Lemma join_split_tag (x y : string) (before after : list string) :
  join " " (before ++ (x ++ " " ++ y)%string :: after)%list =
  join " " (before ++ x :: y :: after)%list.
Proof.
  induction before as [|b before IH].
  - cbn [app]. destruct after as [|c after].
    + reflexivity.
    + rewrite !join_cons by discriminate. now rewrite !string_app_assoc.
  - cbn [app]. rewrite !join_cons by (now destruct before). now rewrite IH.
Qed.

(** X28.  Tags are published joined by single spaces, so a tag that
    holds a space is published as the two tags it falls into: the
    fragment is the same, whatever the template. *)
Theorem publish_splits_tag_at_space (template : TemplateData -> string)
    (id : num) (this : Passage) (x y : string) (before after : list string) :
  tags this = (before ++ (x ++ " " ++ y)%string :: after)%list ->
  publish template id this =
  publish template id (with_tags (before ++ x :: y :: after)%list this).
Proof.
  intro H. unfold publish, with_tags. cbn [name left top text tags].
  now rewrite H, join_split_tag.
Qed.

Lemma publish_splits_tag_at_space_witness :
  publish data_tags (Num 1)
    (with_tags ["dark"; "north wing"] (passage_at 0 0)) =
  publish data_tags (Num 1)
    (with_tags ["dark"; "north"; "wing"] (passage_at 0 0)).
Proof.
  apply (@publish_splits_tag_at_space data_tags (Num 1)
           (with_tags ["dark"; "north wing"] (passage_at 0 0))
           "north" "wing" ["dark"] []).
  reflexivity.
Defined.
